(** * torch/onnx/_internal/registration.py: the symbolic function registry

    A shallow embedding of the registry of symbolic functions and of its
    version dispatch, with the properties of its specification.

    Python values are modelled as follows.
    - [OpsetVersion = int] is [Z].
    - A [dict] is a [gmap]; every reader of the dictionaries of this module
      sorts the keys, takes their minimum or looks one key up, so the
      insertion order of a Python dict is not observable and is not kept.
    - A raised exception is the [Raise] case of [result]; the state reached
      when the exception is raised is kept next to it.
    - Objects of class [_SymbolicFunctionGroup] live in a heap and are named
      by their address: [functools.lru_cache] on the method [get] is one
      cache for the whole class, keyed by the pair of the instance and the
      requested opset. *)

From stdpp Require Import gmap strings list sorting fin_maps.

Local Open Scope Z_scope.

(** ** Exceptions and results *)

Inductive exn : Type :=
  | AssertionError
  | KeyError (key : Z)
  | ValueError (msg : string)
  | AttributeError.

Inductive result (A : Type) : Type :=
  | Ok (a : A)
  | Raise (e : exn).
Arguments Ok {A} a.
Arguments Raise {A} e.

(** ** Collections

    [Collection[OpsetVersion]], by the two things that the dispatch asks of
    one: its truth value ([__bool__], or [__len__] where there is none) and
    the versions that iterating over it gives. *)

Class Collection (C : Type) : Type := {
  py_bool : C → bool;
  py_iter : C → list Z
}.

Global Instance list_Collection : Collection (list Z) := {|
  py_bool xs := match xs with [] => false | _ :: _ => true end;
  py_iter xs := xs
|}.

(** ** [_dispatch_opset_version] *)

Module Dispatch.
Section dispatch.
(** [_constants.ONNX_BASE_OPSET] is defined outside this module; the
    dispatch is stated for any value of it. *)
Variable ONNX_BASE_OPSET : Z.

(** [sorted(xs)] on integers. *)
Definition sorted (xs : list Z) : list Z := merge_sort Z.le xs.

(** [for version in xs: if p(version): return version]. *)
Fixpoint first_match (p : Z → bool) (xs : list Z) : option Z :=
  match xs with
  | [] => None
  | version :: rest => if p version then Some version else first_match p rest
  end.

(** [BASE <= version <= target], the test of the first loop. *)
Definition down_ok (target version : Z) : bool :=
  (ONNX_BASE_OPSET <=? version) && (version <=? target).

(** [target <= version <= BASE], the test of the second loop. *)
Definition up_ok (target version : Z) : bool :=
  (target <=? version) && (version <=? ONNX_BASE_OPSET).

(** The condition of the [assert] that guards the final [return None];
    [available_versions[0]] and [available_versions[-1]] are only read
    when the list has an element. *)
Definition assert_cond (target : Z) (available_versions : list Z) : bool :=
  match available_versions with
  | [] => true
  | first :: _ =>
      ((ONNX_BASE_OPSET <=? target) && (target <? first))
      || ((List.last available_versions first <? ONNX_BASE_OPSET)
          && (ONNX_BASE_OPSET <? target))
  end.

(** [assert] statements are executed (Python is not run with [-O]). *)
Definition _dispatch_opset_version {C : Type} `{Collection C}
    (target : Z) (available_opsets : C) : result (option Z) :=
  if negb (py_bool available_opsets) then Ok None
  else
    let available_versions := sorted (py_iter available_opsets) in
    match first_match (down_ok target) (reverse available_versions) with
    | Some version => Ok (Some version)
    | None =>
        match first_match (up_ok target) available_versions with
        | Some version => Ok (Some version)
        | None =>
            if assert_cond target available_versions
            then Ok None
            else Raise AssertionError
        end
    end.
End dispatch.
End Dispatch.


(** ** State and exceptions: a small monad

    A computation reads and writes a state of type [S] and either returns a
    value or raises; the state at the raise is kept, as the effects of a
    Python call that raises are. *)

Definition M (S A : Type) : Type := S → result A * S.

Definition ret {S A : Type} (a : A) : M S A := λ σ, (Ok a, σ).

Definition raise {S A : Type} (e : exn) : M S A := λ σ, (Raise e, σ).

Definition bind {S A B : Type} (m : M S A) (k : A → M S B) : M S B :=
  λ σ, match m σ with
       | (Ok a, σ') => k a σ'
       | (Raise e, σ') => (Raise e, σ')
       end.

Definition gets {S A : Type} (f : S → A) : M S A := λ σ, (Ok (f σ), σ).

Definition modify {S : Type} (f : S → S) : M S unit := λ σ, (Ok tt, f σ).

Definition lift_result {S A : Type} (r : result A) : M S A := λ σ, (r, σ).

Global Instance M_ret {S : Type} : MRet (M S) := λ A, ret.
Global Instance M_bind {S : Type} : MBind (M S) := λ A B k m, bind m k.

(** ** [OverrideDict] *)

Module OverrideDict.
Section override_dict.
Context {V : Type}.

Record t : Type := mk {
  _base : gmap Z V;
  _overrides : gmap Z V;
  _merged : gmap Z V
}.

(** [{**base, **overrides}]: the entries of [overrides] win. *)
Definition merge (base overrides : gmap Z V) : gmap Z V := overrides ∪ base.

Definition __init__ : t := mk ∅ ∅ ∅.

Definition override (self : t) (key : Z) (value : V) : t :=
  mk (_base self)
     (<[key := value]> (_overrides self))
     (<[key := value]> (_merged self)).

Definition remove_override (self : t) (key : Z) : t :=
  let overrides' := delete key (_overrides self) in
  mk (_base self) overrides' (merge (_base self) overrides').

Definition overrides (self : t) : gset Z := dom (_overrides self).

Definition overridden (self : t) (key : Z) : bool :=
  bool_decide (is_Some (_overrides self !! key)).

Definition in_base (self : t) (key : Z) : bool :=
  bool_decide (is_Some (_base self !! key)).

Definition __getitem__ (self : t) (key : Z) : result V :=
  match _merged self !! key with
  | Some value => Ok value
  | None => Raise (KeyError key)
  end.

Definition __setitem__ (self : t) (key : Z) (value : V) : t :=
  let base' := <[key := value]> (_base self) in
  mk base' (_overrides self) (merge base' (_overrides self)).

Definition get (self : t) (key : Z) (default : option V) : option V :=
  match _merged self !! key with
  | Some value => Some value
  | None => default
  end.

Definition __contains__ (self : t) (key : Z) : bool :=
  bool_decide (is_Some (_merged self !! key)).

(** The keys, in the order of the map. *)
Definition __iter__ (self : t) : list Z := (map_to_list (_merged self)).*1.

Definition __len__ (self : t) : nat := size (_merged self).

Definition __bool__ (self : t) : bool :=
  negb (bool_decide (_merged self = ∅)).

(** *** Clients of the class: the mutating methods, and the dictionaries
    that every call of a sequence leaves. *)
Inductive op : Type :=
  | SetItem (key : Z) (value : V)
  | Override (key : Z) (value : V)
  | RemoveOverride (key : Z).

Definition apply (self : t) (o : op) : t :=
  match o with
  | SetItem key value => __setitem__ self key value
  | Override key value => override self key value
  | RemoveOverride key => remove_override self key
  end.

Fixpoint states (self : t) (os : list op) : list t :=
  match os with
  | [] => []
  | o :: os' => let self' := apply self o in self' :: states self' os'
  end.

(** *** What the class keeps *)

(** [_merged] is [{**_base, **_overrides}]. *)
Definition consistent (d : t) : Prop := _merged d = merge (_base d) (_overrides d).

(** What the reading methods answer on a dictionary whose merged view is
    [m]. *)
Definition reads_as (d : t) (m : gmap Z V) : Prop :=
  (∀ key default,
      get d key default = match m !! key with Some v => Some v | None => default end)
  ∧ (∀ key,
      __getitem__ d key = match m !! key with Some v => Ok v | None => Raise (KeyError key) end)
  ∧ (∀ key, __contains__ d key = bool_decide (is_Some (m !! key)))
  ∧ __iter__ d = (map_to_list m).*1
  ∧ __len__ d = size m.
End override_dict.
Arguments op : clear implicits.
Arguments t : clear implicits.

Global Instance OverrideDict_Collection {V : Type} : Collection (t V) := {|
  py_bool := __bool__;
  py_iter := __iter__
|}.
End OverrideDict.

(** ** [_SymbolicFunctionGroup] *)

Module SymbolicFunctionGroup.

(** The two calls of [warnings.warn], by what their message reports:
    [add] on an opset that the base layer already has (category
    [errors.OnnxExporterWarning]) and [remove_custom] on an opset that is
    not overridden. *)
Inductive warning : Type :=
  | AlreadyRegistered (name : string) (opset : Z)
  | NoCustomFunction (name : string) (opset : Z).

Section group.
Context {Handler : Type}.
Variable ONNX_BASE_OPSET : Z.

(** The attributes of one instance. *)
Record t : Type := mk {
  _name : string;
  _functions : OverrideDict.t Handler
}.

(** The instances by address, the cache that [functools.lru_cache] keeps
    for the method [get] of the class, and the warnings issued so far
    (latest first). *)
Record heap : Type := Heap {
  objects : gmap positive t;
  get_cache : gmap (positive * Z) (option Handler);
  warnings : list warning
}.

Definition empty_heap : heap := Heap ∅ ∅ [].

Definition set_objects (f : gmap positive t → gmap positive t) (σ : heap) : heap :=
  Heap (f (objects σ)) (get_cache σ) (warnings σ).

Definition set_get_cache
    (f : gmap (positive * Z) (option Handler) → gmap (positive * Z) (option Handler))
    (σ : heap) : heap :=
  Heap (objects σ) (f (get_cache σ)) (warnings σ).

Definition warn (w : warning) : M heap unit :=
  modify (λ σ, Heap (objects σ) (get_cache σ) (w :: warnings σ)).

(** Reading the attributes of [self]. An address that the heap does not
    hold is no instance of the class and has none of its attributes. *)
Definition load (self : positive) : M heap t :=
  λ σ, match objects σ !! self with
       | Some g => (Ok g, σ)
       | None => (Raise AttributeError, σ)
       end.

(** The in-place update of the dictionary [self._functions]. *)
Definition update_functions
    (self : positive) (f : OverrideDict.t Handler → OverrideDict.t Handler) : M heap unit :=
  g ← load self;
  modify (set_objects <[self := mk (_name g) (f (_functions g))]>).

(** [self.get.cache_clear()] empties the cache of the class. *)
Definition cache_clear : M heap unit := modify (set_get_cache (λ _, ∅)).

Definition __init__ (name : string) : M heap positive :=
  λ σ, let self := fresh (dom (objects σ)) in
       (Ok self, set_objects <[self := mk name OverrideDict.__init__]> σ).

(** The body of [get], the function that [functools.lru_cache] wraps
    ([get.__wrapped__]): it reads the attributes of [self] only. *)
Definition get__wrapped__ (g : t) (opset : Z) : result (option Handler) :=
  match Dispatch._dispatch_opset_version ONNX_BASE_OPSET opset (_functions g) with
  | Raise e => Raise e
  | Ok None => Ok None
  | Ok (Some version) =>
      match OverrideDict.__getitem__ (_functions g) version with
      | Ok func => Ok (Some func)
      | Raise e => Raise e
      end
  end.

(** [get] as decorated: a hit returns the stored value; a miss calls the
    body and stores what it returns. A call that raises stores nothing. *)
Definition get (self : positive) (opset : Z) : M heap (option Handler) :=
  cached ← gets (λ σ, get_cache σ !! (self, opset));
  match cached with
  | Some r => mret r
  | None =>
      g ← load self;
      r ← lift_result (get__wrapped__ g opset);
      modify (set_get_cache <[(self, opset) := r]>);;
      mret r
  end.

Definition __getitem__ (self : positive) (key : Z) : M heap Handler :=
  r ← get self key;
  match r with
  | None => raise (KeyError key)
  | Some func => mret func
  end.

Definition add (self : positive) (func : Handler) (opset : Z) : M heap unit :=
  g ← load self;
  (if OverrideDict.in_base (_functions g) opset
   then warn (AlreadyRegistered (_name g) opset)
   else mret tt);;
  update_functions self (λ d, OverrideDict.__setitem__ d opset func);;
  cache_clear.

Definition add_custom (self : positive) (func : Handler) (opset : Z) : M heap unit :=
  update_functions self (λ d, OverrideDict.override d opset func);;
  cache_clear.

Definition remove_custom (self : positive) (opset : Z) : M heap unit :=
  g ← load self;
  if negb (OverrideDict.overridden (_functions g) opset)
  then warn (NoCustomFunction (_name g) opset)
  else
    update_functions self (λ d, OverrideDict.remove_override d opset);;
    cache_clear.

(** [min(xs)] of the builtins. *)
Definition py_min (xs : list Z) : result Z :=
  match xs with
  | [] => Raise (ValueError "min() arg is an empty sequence")
  | x :: rest => Ok (foldl Z.min x rest)
  end.

Definition get_min_supported (self : positive) : M heap Z :=
  g ← load self;
  lift_result (py_min (OverrideDict.__iter__ (_functions g))).

(** *** Clients of the class

    A state of the heap is one that calls of the constructor and of the
    methods produce. Each call is made by some client, which goes on after
    a call that raised. *)
Inductive call : Type :=
  | New (name : string)
  | Add (self : positive) (func : Handler) (opset : Z)
  | AddCustom (self : positive) (func : Handler) (opset : Z)
  | RemoveCustom (self : positive) (opset : Z)
  | Get (self : positive) (opset : Z)
  | GetItem (self : positive) (key : Z)
  | GetMinSupported (self : positive).

Definition step (σ : heap) (c : call) : heap :=
  match c with
  | New name => (__init__ name σ).2
  | Add self func opset => (add self func opset σ).2
  | AddCustom self func opset => (add_custom self func opset σ).2
  | RemoveCustom self opset => (remove_custom self opset σ).2
  | Get self opset => (get self opset σ).2
  | GetItem self key => (__getitem__ self key σ).2
  | GetMinSupported self => (get_min_supported self σ).2
  end.

Definition run (cs : list call) (σ : heap) : heap := foldl step σ cs.

(** *** What the class keeps: every dictionary of functions has its merged
    view, and every entry of the cache is what the body of [get] returns on
    the instance as it is now. *)
Definition heap_wf (σ : heap) : Prop :=
  (∀ a g, objects σ !! a = Some g → OverrideDict.consistent (_functions g))
  ∧ (∀ a opset r, get_cache σ !! (a, opset) = Some r →
       ∃ g, objects σ !! a = Some g ∧ get__wrapped__ g opset = Ok r).
End group.
Arguments t : clear implicits.
Arguments heap : clear implicits.
Arguments call : clear implicits.
End SymbolicFunctionGroup.

(** ** [SymbolicRegistry] *)

(** [sub in s] on strings. *)
Fixpoint str_in (sub s : string) : bool :=
  String.prefix sub s
  || match s with
     | EmptyString => false
     | String _ s' => str_in sub s'
     end.

Module SymbolicRegistry.
Import SymbolicFunctionGroup.
Section registry.
Context {Handler : Type}.
Variable ONNX_BASE_OPSET : Z.

(** The attribute [_registry]: the groups by name, each held by
    reference. *)
Record t : Type := mk { _registry : gmap string positive }.

(** A registry and the heap that its groups live in. *)
Definition state : Type := t * heap Handler.

Definition __init__ : t := mk ∅.

Definition init_state : state := (__init__, empty_heap).

Definition on_heap {A : Type} (m : M (heap Handler) A) : M state A :=
  λ s, let '(a, σ') := m s.2 in (a, (s.1, σ')).

(** [self._registry.setdefault(name, default)]. *)
Definition setdefault (name : string) (default : positive) : M state positive :=
  λ s, match _registry s.1 !! name with
       | Some group => (Ok group, s)
       | None => (Ok default, (mk (<[name := default]> (_registry s.1)), s.2))
       end.

Definition register
    (name : string) (opset : Z) (func : Handler) (custom : bool) : M state unit :=
  if negb (str_in "::" name)
  then raise (ValueError
                ("The name must be in the form of 'domain::op', not '" +:+ name +:+ "'"))
  else
    new_group ← on_heap (SymbolicFunctionGroup.__init__ name);
    symbolic_functions ← setdefault name new_group;
    if custom
    then on_heap (add_custom symbolic_functions func opset)
    else on_heap (add symbolic_functions func opset).

Definition unregister (name : string) (opset : Z) : M state unit :=
  entry ← gets (λ s : state, _registry s.1 !! name);
  match entry with
  | None => mret tt
  | Some group => on_heap (remove_custom group opset)
  end.

Definition get_function_group (name : string) : M state (option positive) :=
  gets (λ s : state, _registry s.1 !! name).

Definition is_registered_op (name : string) (version : Z) : M state bool :=
  functions ← get_function_group name;
  match functions with
  | None => mret false
  | Some group =>
      r ← on_heap (get ONNX_BASE_OPSET group version);
      mret (match r with Some _ => true | None => false end)
  end.

Definition all_functions : M state (gset string) :=
  gets (λ s : state, dom (_registry s.1)).

(** *** Clients of a registry: its methods, and the methods of the
    groups, which [get_function_group] hands out by reference. *)
Inductive call : Type :=
  | Register (name : string) (opset : Z) (func : Handler) (custom : bool)
  | Unregister (name : string) (opset : Z)
  | IsRegisteredOp (name : string) (version : Z)
  | OnGroup (c : SymbolicFunctionGroup.call Handler).

Definition step (s : state) (c : call) : state :=
  match c with
  | Register name opset func custom => (register name opset func custom s).2
  | Unregister name opset => (unregister name opset s).2
  | IsRegisteredOp name version => (is_registered_op name version s).2
  | OnGroup c => (s.1, SymbolicFunctionGroup.step ONNX_BASE_OPSET s.2 c)
  end.

Definition run (cs : list call) (s : state) : state := foldl step s cs.

(** *** What a registry keeps: its heap is as above and every name leads to
    an instance. *)
Definition state_wf (s : state) : Prop :=
  heap_wf ONNX_BASE_OPSET s.2
  ∧ ∀ name a, _registry s.1 !! name = Some a → is_Some (objects s.2 !! a).
End registry.
Arguments t : clear implicits.
Arguments call : clear implicits.
End SymbolicRegistry.

(** ** [onnx_symbolic] and [custom_onnx_symbolic] *)

Module EntryPoints.
Import SymbolicRegistry.
Section entry_points.
Context {Handler : Type}.

(** [Union[OpsetVersion, Sequence[OpsetVersion]]]. *)
Inductive opset_arg : Type :=
  | One (opset : Z)
  | Many (opsets : list Z).

(** [for x in xs: body(x)]; a call that raises ends the loop. *)
Fixpoint for_each {S A : Type} (body : A → M S unit) (xs : list A) : M S unit :=
  match xs with
  | [] => mret tt
  | x :: rest => body x;; for_each body rest
  end.

(** [decorated = decorate_func(decorated)] for each function of [decorate],
    in its order. A decorator is taken to do nothing but return a
    function. *)
Definition apply_decorators
    (decorate : option (list (Handler → Handler))) (func : Handler) : Handler :=
  match decorate with
  | None => func
  | Some decorators => foldl (λ decorated decorate_func, decorate_func decorated) func decorators
  end.

(** [onnx_symbolic(name, opset, decorate, custom)] is the function
    [wrapper]; its argument [func] comes last. The global [registry] is the
    registry of the state. The types that [beartype] checks are those of
    the arguments here. *)
Definition onnx_symbolic
    (name : string) (opset : opset_arg) (decorate : option (list (Handler → Handler)))
    (custom : bool) (func : Handler) : M (state (Handler:=Handler)) Handler :=
  let decorated := apply_decorators decorate func in
  let opset := match opset with One opset => [opset] | Many opsets => opsets end in
  for_each (λ opset_version, register name opset_version decorated custom) opset;;
  mret func.

Definition custom_onnx_symbolic
    (name : string) (opset : opset_arg) (decorate : option (list (Handler → Handler)))
    (func : Handler) : M (state (Handler:=Handler)) Handler :=
  onnx_symbolic name opset decorate true func.
End entry_points.
Arguments opset_arg : clear implicits.
End EntryPoints.

(** ** Views of a registry, for the statements below *)

Module Views.
Import SymbolicFunctionGroup SymbolicRegistry.
Section views.
Context {Handler : Type}.

(** The dictionary of functions of the group of a name. *)
Definition functions_of (s : state (Handler:=Handler)) (name : string)
    : option (OverrideDict.t Handler) :=
  a ← _registry s.1 !! name;
  g ← objects s.2 !! a;
  Some (_functions g).

(** Two names do not share a group. *)
Definition registry_inj (s : state (Handler:=Handler)) : Prop :=
  ∀ n1 n2 a, _registry s.1 !! n1 = Some a → _registry s.1 !! n2 = Some a → n1 = n2.

(** What [register] does to the dictionary of the name. *)
Definition registered
    (custom : bool) (opset : Z) (func : Handler) (d : OverrideDict.t Handler)
    : OverrideDict.t Handler :=
  if custom then OverrideDict.override d opset func
  else OverrideDict.__setitem__ d opset func.
End views.
End Views.

(** ** Sample clients

    The handlers are named by strings. *)

Module Samples.
Import SymbolicFunctionGroup.

(** A group with a base function at opset 9 and a custom function at opset
    12, after a [get(12)] that was answered by opset 9. *)
Definition foo_calls : list (call string) :=
  [New "aten::foo"; Add 1 "func9" 9; Get 1 12; AddCustom 1 "custom12" 12].

Definition foo_group : SymbolicFunctionGroup.t string :=
  mk "aten::foo"
     (OverrideDict.mk {[9 := "func9"]} {[12 := "custom12"]}
                      {[9 := "func9"; 12 := "custom12"]}).

(** A group with a base and a custom function at opset 9. *)
Definition both_calls : list (call string) :=
  [New "aten::foo"; Add 1 "func9" 9; AddCustom 1 "custom9" 9; Get 1 9].

Definition both_group : SymbolicFunctionGroup.t string :=
  mk "aten::foo"
     (OverrideDict.mk {[9 := "func9"]} {[9 := "custom9"]} {[9 := "custom9"]}).

(** A registry without names. *)
Definition no_names : SymbolicRegistry.state (Handler:=string) :=
  SymbolicRegistry.init_state.

(** A registry with a base function at opset 9 and a custom function at
    opset 11 under one name. *)
Definition foo_registered : list (SymbolicRegistry.call string) :=
  [SymbolicRegistry.Register "aten::foo" 9 "func9" false;
   SymbolicRegistry.Register "aten::foo" 11 "custom11" true].

(** The group of the specification's example: functions at opsets 9, 11
    and 13. *)
Definition three_versions : list (call string) :=
  [New "aten::foo"; Add 1 "func9" 9; Add 1 "func11" 11; Add 1 "func13" 13].

(** The scenario of the specification: base functions at opsets 9 and 14,
    then a custom function at opset 12, then its removal. *)
Definition scenario_base : list (SymbolicRegistry.call string) :=
  [SymbolicRegistry.Register "aten::foo" 9 "func9" false;
   SymbolicRegistry.Register "aten::foo" 14 "func14" false;
   SymbolicRegistry.IsRegisteredOp "aten::foo" 12].

Definition scenario_custom : list (SymbolicRegistry.call string) :=
  scenario_base ++ [SymbolicRegistry.Register "aten::foo" 12 "custom12" true].

Definition scenario_removed : list (SymbolicRegistry.call string) :=
  scenario_custom ++ [SymbolicRegistry.OnGroup (Get 1 12);
                      SymbolicRegistry.Unregister "aten::foo" 12].
End Samples.

(** ** More sample clients *)

Module MoreSamples.
Import SymbolicFunctionGroup.

(** A dictionary with a base function and an override at opset 9. *)
Definition overridden_ops : list (OverrideDict.op string) :=
  [OverrideDict.SetItem 9 "func9"; OverrideDict.Override 9 "custom9"].

(** Two groups; the second has a base function at opset 9 and an answer of
    [get] in the cache. *)
Definition two_groups : list (call string) :=
  [New "aten::foo"; New "aten::bar"; Add 2 "bar9" 9; Get 2 9].

(** A new group. *)
Definition one_group : list (call string) := [New "aten::foo"].

Definition new_group : SymbolicFunctionGroup.t string :=
  mk "aten::foo" OverrideDict.__init__.

(** A decorator, by the name of the function that it returns. *)
Definition quantized (func : string) : string := func +:+ "_quantized".

(** A group whose one function is at opset 13. *)
Definition only_13 : list (call string) := [New "aten::foo"; Add 1 "func13" 13].
End MoreSamples.

(** * Properties *)

(** ** The version dispatch *)

Section dispatch_facts.
Import Dispatch.
Variable base : Z.

Lemma first_match_Some p xs v :
  first_match p xs = Some v →
  ∃ l1 l2, xs = l1 ++ v :: l2 ∧ p v = true ∧ ∀ x, x ∈ l1 → p x = false.
Proof.
  induction xs as [|x xs IH]; simpl; [done|].
  destruct (p x) eqn:Hx.
  - intros [= ->]. exists [], xs. split_and!; [done|done|]. by intros ? ?%elem_of_nil.
  - intros (l1 & l2 & -> & Hv & Hl1)%IH. exists (x :: l1), l2.
    split_and!; [done|done|]. intros y [->|?]%elem_of_cons; auto.
Qed.

Lemma first_match_None p xs :
  first_match p xs = None ↔ ∀ x, x ∈ xs → p x = false.
Proof.
  induction xs as [|x xs IH]; simpl.
  - split; [by intros _ ? ?%elem_of_nil|done].
  - destruct (p x) eqn:Hx.
    + split; [done|]. intros H. specialize (H x (list_elem_of_here _ _)). congruence.
    + rewrite IH. split.
      * intros H y [->|?]%elem_of_cons; auto.
      * intros H y ?. apply H. by right.
Qed.

Lemma first_match_is_Some p xs v :
  v ∈ xs → p v = true → is_Some (first_match p xs).
Proof.
  intros Hin Hp. destruct (first_match p xs) eqn:E; [by eexists|].
  rewrite first_match_None in E. specialize (E v Hin). congruence.
Qed.

Lemma sorted_StronglySorted xs : StronglySorted Z.le (sorted xs).
Proof. apply StronglySorted_merge_sort; apply _. Qed.

Lemma elem_of_sorted xs v : v ∈ sorted xs ↔ v ∈ xs.
Proof. unfold sorted. by rewrite merge_sort_Permutation. Qed.

Lemma sorted_nil_inv xs : sorted xs = [] → xs = [].
Proof.
  intros E. apply Permutation_nil_r. rewrite <- E.
  unfold sorted. by rewrite merge_sort_Permutation.
Qed.

Lemma dispatch_nil target :
  _dispatch_opset_version base target (@nil Z) = Ok None.
Proof. reflexivity. Qed.

Lemma dispatch_cons target x xs :
  _dispatch_opset_version base target (x :: xs) =
    match first_match (down_ok base target) (reverse (sorted (x :: xs))) with
    | Some version => Ok (Some version)
    | None =>
        match first_match (up_ok base target) (sorted (x :: xs)) with
        | Some version => Ok (Some version)
        | None =>
            if assert_cond base target (sorted (x :: xs))
            then Ok None
            else Raise AssertionError
        end
    end.
Proof. reflexivity. Qed.

(** A collection that is true exactly when it has elements dispatches as
    the list of its elements. *)
Lemma dispatch_as_list {C : Type} `{Collection C} target (c : C) :
  (py_bool c = true ↔ py_iter c ≠ []) →
  _dispatch_opset_version base target c = _dispatch_opset_version base target (py_iter c).
Proof.
  intros Hlaw. unfold _dispatch_opset_version at 1.
  destruct (py_iter c) as [|x xs] eqn:E.
  - destruct (py_bool c); [|done]. by destruct (proj1 Hlaw eq_refl).
  - rewrite (proj2 Hlaw) by done. simpl. by rewrite dispatch_cons.
Qed.

Lemma down_ok_spec target v : down_ok base target v = true ↔ base ≤ v ≤ target.
Proof. unfold down_ok. rewrite andb_true_iff, !Z.leb_le. done. Qed.

Lemma up_ok_spec target v : up_ok base target v = true ↔ target ≤ v ≤ base.
Proof. unfold up_ok. rewrite andb_true_iff, !Z.leb_le. done. Qed.

(** The first loop returns the greatest version of its range. *)
Lemma first_match_down target xs m :
  first_match (down_ok base target) (reverse (sorted xs)) = Some m →
  m ∈ xs ∧ base ≤ m ≤ target ∧ ∀ v, v ∈ xs → base ≤ v ≤ target → v ≤ m.
Proof.
  intros (l1 & l2 & E & Hm & Hl1)%first_match_Some.
  assert (Es : sorted xs = reverse l2 ++ m :: reverse l1).
  { rewrite <- (reverse_involutive (sorted xs)), E.
    by rewrite reverse_app, reverse_cons, <- app_assoc. }
  pose proof (sorted_StronglySorted xs) as Hs. rewrite Es in Hs.
  split; [|split].
  - apply elem_of_sorted. rewrite Es. set_solver.
  - by apply down_ok_spec.
  - intros v Hv Hr. apply elem_of_sorted in Hv. rewrite Es in Hv.
    apply elem_of_app in Hv as [Hv|Hv].
    + apply (StronglySorted_app_1_elem_of _ _ _ _ _ Hs Hv). by left.
    + apply elem_of_cons in Hv as [->|Hv]; [lia|].
      rewrite elem_of_reverse in Hv. apply Hl1 in Hv.
      apply down_ok_spec in Hr. congruence.
Qed.

(** The second loop returns the least version of its range. *)
Lemma first_match_up target xs m :
  first_match (up_ok base target) (sorted xs) = Some m →
  m ∈ xs ∧ target ≤ m ≤ base ∧ ∀ v, v ∈ xs → target ≤ v ≤ base → m ≤ v.
Proof.
  intros (l1 & l2 & Es & Hm & Hl1)%first_match_Some.
  pose proof (sorted_StronglySorted xs) as Hs. rewrite Es in Hs.
  split; [|split].
  - apply elem_of_sorted. rewrite Es. set_solver.
  - by apply up_ok_spec.
  - intros v Hv Hr. apply elem_of_sorted in Hv. rewrite Es in Hv.
    apply elem_of_app in Hv as [Hv|Hv].
    + apply Hl1 in Hv. apply up_ok_spec in Hr. congruence.
    + apply elem_of_cons in Hv as [->|Hv]; [lia|].
      change (m :: l2) with ([m] ++ l2) in Hs. rewrite app_assoc in Hs.
      apply (StronglySorted_app_1_elem_of _ _ _ m v Hs); [|done].
      apply elem_of_app. right. by left.
Qed.

Lemma dispatch_down target xs :
  (∃ v, v ∈ xs ∧ base ≤ v ≤ target) →
  ∃ m, _dispatch_opset_version base target xs = Ok (Some m)
       ∧ m ∈ xs ∧ base ≤ m ≤ target
       ∧ ∀ v, v ∈ xs → base ≤ v ≤ target → v ≤ m.
Proof.
  intros (v & Hv & Hr). destruct xs as [|x xs']; [by apply elem_of_nil in Hv|]. rewrite dispatch_cons.
  destruct (first_match_is_Some (down_ok base target)
              (reverse (sorted (x :: xs'))) v) as [m Hm].
  { apply elem_of_reverse. by apply elem_of_sorted. }
  { by apply down_ok_spec. }
  rewrite Hm. exists m. split; [done|]. by apply first_match_down.
Qed.

Lemma dispatch_up target xs :
  ¬ (∃ v, v ∈ xs ∧ base ≤ v ≤ target) →
  (∃ v, v ∈ xs ∧ target ≤ v ≤ base) →
  ∃ m, _dispatch_opset_version base target xs = Ok (Some m)
       ∧ m ∈ xs ∧ target ≤ m ≤ base
       ∧ ∀ v, v ∈ xs → target ≤ v ≤ base → m ≤ v.
Proof.
  intros Hno (v & Hv & Hr). destruct xs as [|x xs']; [by apply elem_of_nil in Hv|]. rewrite dispatch_cons.
  destruct (first_match (down_ok base target) (reverse (sorted (x :: xs')))) as [m|] eqn:Hd.
  { apply first_match_down in Hd as (? & ? & _). destruct Hno. eauto. }
  destruct (first_match_is_Some (up_ok base target) (sorted (x :: xs')) v) as [m Hm].
  { by apply elem_of_sorted. }
  { by apply up_ok_spec. }
  rewrite Hm. exists m. split; [done|]. by apply first_match_up.
Qed.

(** A version that is available resolves to itself. *)
Lemma dispatch_exact v xs :
  v ∈ xs → _dispatch_opset_version base v xs = Ok (Some v).
Proof.
  intros Hv. destruct (decide (base ≤ v)) as [Hb|Hb].
  - destruct (dispatch_down v xs) as (m & -> & _ & Hm & Hmax); [exists v; split; [done|lia]|].
    specialize (Hmax v Hv). do 2 f_equal. lia.
  - destruct (dispatch_up v xs) as (m & -> & _ & Hm & Hmin).
    + intros (x & _ & ?). lia.
    + exists v. split; [done|lia].
    + specialize (Hmin v Hv). do 2 f_equal. lia.
Qed.

(** When neither loop finds a version, the [assert] decides. *)
Lemma dispatch_no_match target xs :
  xs ≠ [] →
  (∀ v, v ∈ xs → ¬ base ≤ v ≤ target) →
  (∀ v, v ∈ xs → ¬ target ≤ v ≤ base) →
  _dispatch_opset_version base target xs =
    if assert_cond base target (sorted xs) then Ok None else Raise AssertionError.
Proof.
  intros Hne Hd Hu.
  destruct xs as [|x xs']; [done|]. rewrite dispatch_cons.
  destruct (first_match _ (reverse _)) as [m|] eqn:E1.
  { apply first_match_down in E1 as (? & ? & _). by destruct (Hd m). }
  destruct (first_match (up_ok _ _) _) as [m|] eqn:E2.
  { apply first_match_up in E2 as (? & ? & _). by destruct (Hu m). }
  done.
Qed.

(** Below the base version the [assert] never holds. *)
Lemma assert_cond_below target xs :
  xs ≠ [] → target < base → assert_cond base target xs = false.
Proof.
  intros Hne Hlt. destruct xs as [|x xs']; [done|]. unfold assert_cond.
  apply orb_false_iff. split; apply andb_false_iff; [left|right].
  - apply Z.leb_gt. lia.
  - apply Z.ltb_ge. lia.
Qed.

(** What the dispatch returns is available, and it raises nothing but the
    failure of its [assert]. *)
Lemma dispatch_Some target (xs : list Z) m :
  _dispatch_opset_version base target xs = Ok (Some m) → m ∈ xs.
Proof.
  destruct xs as [|x xs']; [done|]. rewrite dispatch_cons.
  destruct (first_match _ (reverse _)) as [m1|] eqn:E1.
  { intros [= <-]. by apply first_match_down in E1 as (? & _). }
  destruct (first_match (up_ok _ _) _) as [m2|] eqn:E2.
  { intros [= <-]. by apply first_match_up in E2 as (? & _). }
  by destruct (assert_cond _ _ _).
Qed.

Lemma dispatch_Raise target (xs : list Z) e :
  _dispatch_opset_version base target xs = Raise e → e = AssertionError.
Proof.
  destruct xs as [|x xs']; [done|]. rewrite dispatch_cons.
  destruct (first_match _ (reverse _)); [done|].
  destruct (first_match (up_ok _ _) _); [done|].
  destruct (assert_cond _ _ _); [done|]. by intros [= <-].
Qed.

(** Where the [assert] holds, no match is [None]. *)
Lemma dispatch_no_match_None target xs :
  xs ≠ [] →
  (∀ v, v ∈ xs → ¬ base ≤ v ≤ target) →
  (∀ v, v ∈ xs → ¬ target ≤ v ≤ base) →
  assert_cond base target (sorted xs) = true →
  _dispatch_opset_version base target xs = Ok None.
Proof. intros Hne Hd Hu Ha. rewrite dispatch_no_match by done. by rewrite Ha. Qed.

(** Below the base version, no match is a failed [assert]. *)
Lemma dispatch_no_match_below target xs :
  xs ≠ [] →
  target < base →
  (∀ v, v ∈ xs → ¬ target ≤ v ≤ base) →
  _dispatch_opset_version base target xs = Raise AssertionError.
Proof.
  intros Hne Hlt Hu. rewrite dispatch_no_match; [|done|intros v _; lia|done].
  rewrite assert_cond_below; [done| |done].
  intros E%sorted_nil_inv. done.
Qed.

(** C2. If an available version lies between the base version and the
    target, the dispatch returns the greatest such version; if none does
    and an available version lies between the target and the base version,
    it returns the least such version. With the versions 9, 11 and 13 and
    base version 9, the targets 12, 10, 8 and 14 resolve to 11, 9, 9 and
    13. *)
Theorem dispatch_nearest_toward_base (target : Z) (V : list Z) :
  ((∃ v, v ∈ V ∧ base ≤ v ≤ target) →
   ∃ m, _dispatch_opset_version base target V = Ok (Some m)
        ∧ m ∈ V ∧ base ≤ m ≤ target
        ∧ ∀ v, v ∈ V → base ≤ v ≤ target → v ≤ m)
  ∧ (¬ (∃ v, v ∈ V ∧ base ≤ v ≤ target) →
     (∃ v, v ∈ V ∧ target ≤ v ≤ base) →
     ∃ m, _dispatch_opset_version base target V = Ok (Some m)
          ∧ m ∈ V ∧ target ≤ m ≤ base
          ∧ ∀ v, v ∈ V → target ≤ v ≤ base → m ≤ v)
  ∧ _dispatch_opset_version 9 12 [9; 11; 13] = Ok (Some 11)
  ∧ _dispatch_opset_version 9 10 [9; 11; 13] = Ok (Some 9)
  ∧ _dispatch_opset_version 9 8 [9; 11; 13] = Ok (Some 9)
  ∧ _dispatch_opset_version 9 14 [9; 11; 13] = Ok (Some 13).
Proof.
  split; [apply dispatch_down|]. split; [apply dispatch_up|].
  repeat split; vm_compute; reflexivity.
Qed.
End dispatch_facts.

(** ** The override dictionary *)

Section override_dict_facts.
Import OverrideDict.
Context {V : Type}.
Implicit Types (d : OverrideDict.t V) (m : gmap Z V).

Lemma reads_as_merged d : reads_as d (_merged d).
Proof. by repeat split. Qed.

Lemma consistent_init : consistent (__init__ (V:=V)).
Proof. unfold consistent, merge. simpl. by rewrite (left_id_L ∅ (∪)). Qed.

Lemma consistent_setitem d key value : consistent (__setitem__ d key value).
Proof. done. Qed.

Lemma consistent_remove_override d key : consistent (remove_override d key).
Proof. done. Qed.

(** [override] writes the one entry of [_merged] that changes. *)
Lemma consistent_override d key value :
  consistent d → consistent (override d key value).
Proof.
  unfold consistent, merge. simpl. intros ->. by rewrite insert_union_l.
Qed.

Lemma consistent_apply d o : consistent d → consistent (apply d o).
Proof.
  destruct o; simpl; auto using consistent_setitem, consistent_override,
    consistent_remove_override.
Qed.

Lemma consistent_states d os :
  consistent d → Forall consistent (states d os).
Proof.
  revert d. induction os as [|o os IH]; intros d Hd; simpl; constructor.
  - by apply consistent_apply.
  - by apply IH, consistent_apply.
Qed.

Lemma merged_lookup d key :
  consistent d →
  _merged d !! key =
    match _overrides d !! key with Some v => Some v | None => _base d !! key end.
Proof.
  intros ->. unfold merge. rewrite lookup_union.
  by destruct (_overrides d !! key), (_base d !! key).
Qed.

Lemma elem_of_iter d key : key ∈ __iter__ d ↔ is_Some (_merged d !! key).
Proof.
  unfold __iter__. rewrite list_elem_of_fmap. split.
  - intros ([k v] & -> & Hkv%elem_of_map_to_list). by eexists.
  - intros [v Hv]. exists (key, v). split; [done|]. by apply elem_of_map_to_list.
Qed.

Lemma iter_nil d : __iter__ d = [] ↔ _merged d = ∅.
Proof.
  unfold __iter__. rewrite <- map_to_list_empty_iff. split; [apply fmap_nil_inv|by intros ->].
Qed.

(** C7. Whatever sequence of [__setitem__], [override] and
    [remove_override] is applied to a new [OverrideDict], after every one
    of them the merged dictionary is the base dictionary with the
    overrides on top, [{**_base, **_overrides}], and [get], [__getitem__],
    [__contains__], [__iter__] and [__len__] read that mapping. *)
Theorem merged_is_base_with_overrides (os : list (op V)) :
  Forall (λ d, _merged d = merge (_base d) (_overrides d)
               ∧ reads_as d (merge (_base d) (_overrides d)))
         (states __init__ os).
Proof.
  eapply Forall_impl; [apply consistent_states, consistent_init|].
  intros d Hd. split; [exact Hd|]. rewrite <- Hd. apply reads_as_merged.
Qed.
End override_dict_facts.

(** ** Function groups *)

Section group_facts.
Import SymbolicFunctionGroup.
Context {Handler : Type}.
Variable base : Z.
Implicit Types (σ : heap Handler) (g : SymbolicFunctionGroup.t Handler)
  (self : positive) (func : Handler) (opset : Z).

Local Ltac run_m :=
  unfold add, add_custom, remove_custom, get, __getitem__, get_min_supported,
    update_functions, cache_clear, warn, load, mbind, M_bind, bind, mret, M_ret,
    ret, raise, gets, modify, lift_result; simpl.

(** The methods, call by call. *)
Lemma load_None self σ {A} (k : _ → M (heap Handler) A) :
  objects σ !! self = None → (load self ≫= k) σ = (Raise AttributeError, σ).
Proof. intros H. run_m. by rewrite H. Qed.

Lemma add_eq self func opset σ g :
  objects σ !! self = Some g →
  add self func opset σ =
    (Ok tt,
     Heap (<[self := mk (_name g) (OverrideDict.__setitem__ (_functions g) opset func)]>
             (objects σ))
          ∅
          (if OverrideDict.in_base (_functions g) opset
           then AlreadyRegistered (_name g) opset :: warnings σ
           else warnings σ)).
Proof.
  intros H. run_m. rewrite H.
  destruct (OverrideDict.in_base _ _); simpl; by rewrite H.
Qed.

Lemma add_custom_eq self func opset σ g :
  objects σ !! self = Some g →
  add_custom self func opset σ =
    (Ok tt,
     Heap (<[self := mk (_name g) (OverrideDict.override (_functions g) opset func)]>
             (objects σ))
          ∅ (warnings σ)).
Proof. intros H. run_m. by rewrite H. Qed.

Lemma remove_custom_absent self opset σ g :
  objects σ !! self = Some g →
  OverrideDict._overrides (_functions g) !! opset = None →
  remove_custom self opset σ =
    (Ok tt, Heap (objects σ) (get_cache σ) (NoCustomFunction (_name g) opset :: warnings σ)).
Proof.
  intros H Ho. run_m. rewrite H. unfold OverrideDict.overridden.
  rewrite Ho. rewrite bool_decide_eq_false_2; [done|]. by intros [? [=]].
Qed.

Lemma remove_custom_present self opset σ g func :
  objects σ !! self = Some g →
  OverrideDict._overrides (_functions g) !! opset = Some func →
  remove_custom self opset σ =
    (Ok tt,
     Heap (<[self := mk (_name g) (OverrideDict.remove_override (_functions g) opset)]>
             (objects σ))
          ∅ (warnings σ)).
Proof.
  intros H Ho. run_m. rewrite H. unfold OverrideDict.overridden.
  rewrite Ho. rewrite bool_decide_eq_true_2; [|by eexists]. simpl. by rewrite H.
Qed.

Lemma get_hit self opset σ r :
  get_cache σ !! (self, opset) = Some r → get base self opset σ = (Ok r, σ).
Proof. intros H. run_m. by rewrite H. Qed.

Lemma get_miss self opset σ g :
  get_cache σ !! (self, opset) = None →
  objects σ !! self = Some g →
  get base self opset σ =
    match get__wrapped__ base g opset with
    | Ok r => (Ok r, set_get_cache <[(self, opset) := r]> σ)
    | Raise e => (Raise e, σ)
    end.
Proof. intros Hc H. run_m. rewrite Hc, H. by destruct (get__wrapped__ _ _ _). Qed.

Lemma get_dangling self opset σ :
  get_cache σ !! (self, opset) = None →
  objects σ !! self = None →
  get base self opset σ = (Raise AttributeError, σ).
Proof. intros Hc H. run_m. by rewrite Hc, H. Qed.

(** *** The body of [get] *)

Lemma dispatch_of_functions g opset :
  Dispatch._dispatch_opset_version base opset (_functions g) =
  Dispatch._dispatch_opset_version base opset (OverrideDict.__iter__ (_functions g)).
Proof.
  change (OverrideDict.__iter__ (_functions g)) with (py_iter (_functions g)).
  apply dispatch_as_list. simpl.
  rewrite iter_nil. unfold OverrideDict.__bool__.
  rewrite negb_true_iff, bool_decide_eq_false. done.
Qed.

Lemma get_wrapped_exact g opset func :
  OverrideDict._merged (_functions g) !! opset = Some func →
  get__wrapped__ base g opset = Ok (Some func).
Proof.
  intros Hm. unfold get__wrapped__. rewrite dispatch_of_functions, dispatch_exact.
  - unfold OverrideDict.__getitem__. by rewrite Hm.
  - apply elem_of_iter. by eexists.
Qed.

(** A group without versions resolves nothing. *)
Lemma get_wrapped_empty g opset :
  OverrideDict._merged (_functions g) = ∅ → get__wrapped__ base g opset = Ok None.
Proof.
  intros Hm. unfold get__wrapped__, Dispatch._dispatch_opset_version. simpl.
  unfold OverrideDict.__bool__. by rewrite Hm, bool_decide_eq_true_2.
Qed.

Lemma get_wrapped_Raise g opset e :
  get__wrapped__ base g opset = Raise e → e = AssertionError.
Proof.
  unfold get__wrapped__. rewrite dispatch_of_functions.
  destruct (Dispatch._dispatch_opset_version _ _ _) as [[m|]|e'] eqn:E; [|done|].
  - apply dispatch_Some, elem_of_iter in E as [func Hm].
    unfold OverrideDict.__getitem__. by rewrite Hm.
  - apply dispatch_Raise in E as ->. by intros [= <-].
Qed.

Lemma get_Raise self opset σ e :
  (get base self opset σ).1 = Raise e → e = AssertionError ∨ e = AttributeError.
Proof.
  destruct (get_cache σ !! (self, opset)) as [r|] eqn:Hc.
  { by rewrite (get_hit _ _ _ _ Hc). }
  destruct (objects σ !! self) as [g|] eqn:Hg.
  - rewrite (get_miss _ _ _ _ Hc Hg).
    destruct (get__wrapped__ base g opset) as [r|e'] eqn:E; [done|].
    simpl. intros [= <-]. left. by eapply get_wrapped_Raise.
  - rewrite (get_dangling _ _ _ Hc Hg). simpl. intros [= <-]. by right.
Qed.

Lemma get_state self opset σ :
  objects (get base self opset σ).2 = objects σ
  ∧ warnings (get base self opset σ).2 = warnings σ.
Proof.
  destruct (get_cache σ !! (self, opset)) as [r|] eqn:Hc.
  { by rewrite (get_hit _ _ _ _ Hc). }
  destruct (objects σ !! self) as [g|] eqn:Hg.
  - rewrite (get_miss _ _ _ _ Hc Hg). by destruct (get__wrapped__ _ _ _).
  - by rewrite (get_dangling _ _ _ Hc Hg).
Qed.

Lemma getitem_eq self key σ :
  __getitem__ base self key σ =
    match get base self key σ with
    | (Ok (Some func), σ') => (Ok func, σ')
    | (Ok None, σ') => (Raise (KeyError key), σ')
    | (Raise e, σ') => (Raise e, σ')
    end.
Proof.
  unfold __getitem__, mbind, M_bind, bind.
  destruct (get base self key σ) as [[[func|]|e] σ']; done.
Qed.

(** *** The invariant of the heap *)

Lemma heap_wf_empty : heap_wf base (empty_heap (Handler:=Handler)).
Proof. split; intros ? ?; [|intros ?]; simpl; by rewrite lookup_empty. Qed.

Lemma heap_wf_cleared σ self g' :
  heap_wf base σ →
  OverrideDict.consistent (_functions g') →
  ∀ ws, heap_wf base (Heap (<[self := g']> (objects σ)) ∅ ws).
Proof.
  intros [Hobj _] Hg' ws. split; simpl.
  - intros a g. rewrite lookup_insert. case_decide; [by intros [= <-]|]. apply Hobj.
  - intros a opset r. by rewrite lookup_empty.
Qed.

Lemma heap_wf_warnings σ ws :
  heap_wf base σ → heap_wf base (Heap (objects σ) (get_cache σ) ws).
Proof. by intros [? ?]. Qed.

Lemma heap_wf_init name σ : heap_wf base σ → heap_wf base (__init__ name σ).2.
Proof.
  intros [Hobj Hcache]. unfold __init__. simpl.
  pose proof (is_fresh (dom (objects σ))) as Hfresh.
  set (self := fresh (dom (objects σ))) in *.
  split; simpl.
  - intros a g. rewrite lookup_insert. case_decide; [|apply Hobj].
    intros [= <-]. apply consistent_init.
  - intros a opset r Hr. destruct (Hcache _ _ _ Hr) as (g & Hg & Hw).
    exists g. split; [|done]. rewrite lookup_insert_ne; [done|].
    intros <-. apply Hfresh. apply elem_of_dom. by eexists.
Qed.

Lemma heap_wf_add self func opset σ :
  heap_wf base σ → heap_wf base (add self func opset σ).2.
Proof.
  intros Hwf. destruct (objects σ !! self) as [g|] eqn:Hg.
  - rewrite (add_eq _ _ _ _ _ Hg). simpl. by apply heap_wf_cleared.
  - run_m. by rewrite Hg.
Qed.

Lemma heap_wf_add_custom self func opset σ :
  heap_wf base σ → heap_wf base (add_custom self func opset σ).2.
Proof.
  intros Hwf. destruct (objects σ !! self) as [g|] eqn:Hg.
  - rewrite (add_custom_eq _ _ _ _ _ Hg). simpl. apply heap_wf_cleared; [done|].
    apply consistent_override. by apply (proj1 Hwf self).
  - run_m. by rewrite Hg.
Qed.

Lemma heap_wf_remove_custom self opset σ :
  heap_wf base σ → heap_wf base (remove_custom self opset σ).2.
Proof.
  intros Hwf. destruct (objects σ !! self) as [g|] eqn:Hg.
  - destruct (OverrideDict._overrides (_functions g) !! opset) as [func|] eqn:Ho.
    + rewrite (remove_custom_present _ _ _ _ _ Hg Ho). simpl.
      by apply heap_wf_cleared.
    + rewrite (remove_custom_absent _ _ _ _ Hg Ho). simpl.
      by apply heap_wf_warnings.
  - run_m. by rewrite Hg.
Qed.

Lemma heap_wf_get self opset σ :
  heap_wf base σ → heap_wf base (get base self opset σ).2.
Proof.
  intros Hwf. destruct (get_cache σ !! (self, opset)) as [r|] eqn:Hc.
  { by rewrite (get_hit _ _ _ _ Hc). }
  destruct (objects σ !! self) as [g|] eqn:Hg.
  - rewrite (get_miss _ _ _ _ Hc Hg).
    destruct (get__wrapped__ base g opset) as [r|e] eqn:Hr; [|done].
    destruct Hwf as [Hobj Hcache]. split; simpl; [done|].
    intros a opset' r'. rewrite lookup_insert. case_decide as Heq.
    + injection Heq as <- <-. intros [= <-]. by exists g.
    + apply Hcache.
  - by rewrite (get_dangling _ _ _ Hc Hg).
Qed.

Lemma heap_wf_getitem self key σ :
  heap_wf base σ → heap_wf base (__getitem__ base self key σ).2.
Proof.
  intros Hwf. rewrite getitem_eq. pose proof (heap_wf_get self key σ Hwf) as H.
  by destruct (get base self key σ) as [[[func|]|e] σ'].
Qed.

Lemma get_min_supported_state self σ : (get_min_supported self σ).2 = σ.
Proof.
  unfold get_min_supported, load, mbind, M_bind, bind, lift_result.
  by destruct (objects σ !! self).
Qed.

Lemma heap_wf_step σ c : heap_wf base σ → heap_wf base (step base σ c).
Proof.
  intros Hwf. destruct c; unfold step;
    auto using heap_wf_init, heap_wf_add, heap_wf_add_custom,
      heap_wf_remove_custom, heap_wf_get, heap_wf_getitem.
  by rewrite get_min_supported_state.
Qed.

Lemma heap_wf_run cs σ : heap_wf base σ → heap_wf base (run base cs σ).
Proof.
  revert σ. induction cs as [|c cs IH]; intros σ Hwf; [done|].
  apply IH. by apply heap_wf_step.
Qed.

(** On a heap that keeps the invariant, the cache is not seen. *)
Lemma get_wf self opset σ g :
  heap_wf base σ →
  objects σ !! self = Some g →
  (get base self opset σ).1 = get__wrapped__ base g opset.
Proof.
  intros [_ Hcache] Hg. destruct (get_cache σ !! (self, opset)) as [r|] eqn:Hc.
  - rewrite (get_hit _ _ _ _ Hc). simpl.
    destruct (Hcache _ _ _ Hc) as (g' & Hg' & Hr). congruence.
  - rewrite (get_miss _ _ _ _ Hc Hg). by destruct (get__wrapped__ _ _ _).
Qed.

(** C3. After any sequence of calls of the constructor and of [add],
    [add_custom], [remove_custom], [get], [__getitem__] and
    [get_min_supported] on any instances, a call of [get] on an instance
    returns what the body of [get], the dispatch over the dictionary of
    functions, gives on that instance as it is at the call: the cache never
    answers with the result of an earlier state. *)
Theorem get_reflects_current_functions
    (cs : list (call Handler)) (self : positive) (opset : Z)
    (g : SymbolicFunctionGroup.t Handler) :
  objects (run base cs empty_heap) !! self = Some g →
  (get base self opset (run base cs empty_heap)).1 = get__wrapped__ base g opset.
Proof. apply get_wf, heap_wf_run, heap_wf_empty. Qed.

(** C4. On an instance that any sequence of calls leaves with both a base
    function and a custom function at [opset], [get(opset)] returns the
    custom function, and a [get(opset)] that follows [remove_custom(opset)]
    returns the base function. *)
Theorem custom_wins_until_removed
    (cs : list (call Handler)) (self : positive) (opset : Z)
    (g : SymbolicFunctionGroup.t Handler) (base_func custom_func : Handler) :
  objects (run base cs empty_heap) !! self = Some g →
  OverrideDict._base (_functions g) !! opset = Some base_func →
  OverrideDict._overrides (_functions g) !! opset = Some custom_func →
  ((before ← get base self opset;
    remove_custom self opset;;
    after ← get base self opset;
    mret (before, after)) (run base cs empty_heap)).1
  = Ok (Some custom_func, Some base_func).
Proof.
  intros Hg Hb Ho. set (σ := run base cs empty_heap) in *.
  assert (Hwf : heap_wf base σ) by apply heap_wf_run, heap_wf_empty.
  pose proof (get_wf self opset σ g Hwf Hg) as H1.
  rewrite (get_wrapped_exact g opset custom_func) in H1.
  2:{ rewrite merged_lookup by (by apply (proj1 Hwf self)). by rewrite Ho. }
  destruct (get_state self opset σ) as [Hobj _].
  unfold mbind, M_bind, bind.
  destruct (get base self opset σ) as [r1 σ1]. simpl in H1, Hobj. subst r1.
  rewrite <- Hobj in Hg.
  rewrite (remove_custom_present _ _ _ _ _ Hg Ho).
  erewrite get_miss; [|apply lookup_empty|apply lookup_insert_eq].
  rewrite (get_wrapped_exact _ opset base_func); [done|].
  simpl. unfold OverrideDict.merge. rewrite lookup_union_r; [done|].
  apply lookup_delete_eq.
Qed.

(** C8. [remove_custom(opset)] on an instance where [opset] is not
    overridden returns without raising and leaves the instances and the
    cache as they are: it only issues the warning. So does the second of two
    [remove_custom(opset)] in a row, whatever the first one found. *)
Theorem remove_custom_absent_is_noop
    (σ : heap Handler) (self : positive) (opset : Z)
    (g : SymbolicFunctionGroup.t Handler) :
  objects σ !! self = Some g →
  (OverrideDict._overrides (_functions g) !! opset = None →
   remove_custom self opset σ =
     (Ok tt, Heap (objects σ) (get_cache σ)
               (NoCustomFunction (_name g) opset :: warnings σ)))
  ∧ (let σ1 := (remove_custom self opset σ).2 in
     (remove_custom self opset σ).1 = Ok tt
     ∧ remove_custom self opset σ1 =
         (Ok tt, Heap (objects σ1) (get_cache σ1)
                   (NoCustomFunction (_name g) opset :: warnings σ1))).
Proof.
  intros Hg. split; [by apply remove_custom_absent|].
  destruct (OverrideDict._overrides (_functions g) !! opset) as [func|] eqn:Ho.
  - rewrite (remove_custom_present _ _ _ _ _ Hg Ho). simpl. split; [done|].
    rewrite (remove_custom_absent self opset _
               (mk (_name g) (OverrideDict.remove_override (_functions g) opset)));
      [done|apply lookup_insert_eq|apply lookup_delete_eq].
  - rewrite (remove_custom_absent _ _ _ _ Hg Ho). simpl. split; [done|].
    by erewrite remove_custom_absent.
Qed.

(** [min] of a list that has an element. *)
Lemma py_min_spec xs :
  xs ≠ [] → ∃ m, py_min xs = Ok m ∧ m ∈ xs ∧ ∀ k, k ∈ xs → m ≤ k.
Proof.
  destruct xs as [|x rest]; [done|]. intros _. simpl. eexists. split; [done|].
  revert x. induction rest as [|y rest IH]; intros x; simpl.
  - split; [by left|]. intros k ->%list_elem_of_singleton. lia.
  - destruct (IH (x `min` y)) as [Hin Hle]. split.
    + apply elem_of_cons in Hin as [Hin|Hin]; [|by do 2 right].
      rewrite Hin. destruct (Z.min_spec x y) as [[_ ->]|[_ ->]]; [by left|right; by left].
    + intros k Hk. apply elem_of_cons in Hk as [->|Hk].
      * specialize (Hle (x `min` y)). etrans; [apply Hle; by left|lia].
      * apply elem_of_cons in Hk as [->|Hk].
        -- specialize (Hle (x `min` y)). etrans; [apply Hle; by left|lia].
        -- apply Hle. by right.
Qed.

(** C9. On an instance that any sequence of calls leaves with a version in
    its base or in its overrides, [get_min_supported] returns the least key
    of the merged dictionary, whose keys are those of the two layers; on an
    instance with neither it raises [ValueError], the error of [min] on
    nothing. *)
Theorem get_min_supported_least_merged_key
    (cs : list (call Handler)) (self : positive)
    (g : SymbolicFunctionGroup.t Handler) :
  objects (run base cs empty_heap) !! self = Some g →
  let σ := run base cs empty_heap in
  let d := _functions g in
  dom (OverrideDict._merged d) = dom (OverrideDict._base d) ∪ dom (OverrideDict._overrides d)
  ∧ (OverrideDict._base d ≠ ∅ ∨ OverrideDict._overrides d ≠ ∅ →
     ∃ m, get_min_supported self σ = (Ok m, σ)
          ∧ m ∈ dom (OverrideDict._merged d)
          ∧ ∀ k, k ∈ dom (OverrideDict._merged d) → m ≤ k)
  ∧ (OverrideDict._base d = ∅ ∧ OverrideDict._overrides d = ∅ →
     ∃ msg, get_min_supported self σ = (Raise (ValueError msg), σ)).
Proof.
  intros Hg σ d. change (objects σ !! self = Some g) in Hg.
  assert (Hwf : heap_wf base σ) by apply heap_wf_run, heap_wf_empty.
  assert (Hd : OverrideDict._merged d = OverrideDict._overrides d ∪ OverrideDict._base d)
    by apply (proj1 Hwf self g Hg).
  assert (Hmin : get_min_supported self σ = (py_min (OverrideDict.__iter__ d), σ)).
  { unfold get_min_supported, load, mbind, M_bind, bind, lift_result.
    by rewrite Hg. }
  split_and!.
  - rewrite Hd, dom_union_L. apply (comm_L (∪)).
  - intros Hne. destruct (py_min_spec (OverrideDict.__iter__ d)) as (m & Hm & Hin & Hle).
    { rewrite iter_nil, Hd. intros Hu.
      pose proof (map_positive_l _ _ Hu) as Ho. rewrite Ho, (left_id_L ∅ (∪)) in Hu.
      by destruct Hne. }
    exists m. rewrite Hmin, Hm. split_and!; [done| |].
    + apply elem_of_dom. by apply elem_of_iter.
    + intros k Hk%elem_of_dom. by apply Hle, elem_of_iter.
  - intros [Hb Ho]. rewrite Hmin.
    assert (OverrideDict.__iter__ d = []) as ->; [|by eexists].
    apply iter_nil. rewrite Hd, Hb, Ho. apply (left_id_L ∅ (∪)).
Qed.

(** What [group[key]] makes of each outcome of [get(key)]: it raises
    [KeyError] exactly when [get(key)] returns [None], and then it is
    [KeyError(key)]; it returns a function exactly when [get(key)] returns
    that function; and it leaves the state that [get(key)] leaves. When
    [get(key)] raises, neither holds (see [getitem_eq]). *)
Theorem getitem_KeyError_iff_get_None
    (σ : heap Handler) (self : positive) (key : Z) :
  let got := get base self key σ in
  let item := __getitem__ base self key σ in
  (got.1 = Ok None ↔ ∃ k, item.1 = Raise (KeyError k))
  ∧ (got.1 = Ok None ↔ item.1 = Raise (KeyError key))
  ∧ (∀ func, got.1 = Ok (Some func) ↔ item.1 = Ok func)
  ∧ item.2 = got.2.
Proof.
  intros got item. subst item. rewrite getitem_eq.
  pose proof (get_Raise self key σ) as Hraise. fold got in Hraise |- *.
  destruct got as [[[func|]|e] σ']; simpl in *.
  - split_and!; [| |intros func'|done]; try (split; [done|]).
    + by intros [k ?].
    + done.
    + split; congruence.
  - split_and!; [| |intros func'|done]; [split; eauto|done|split; done].
  - destruct (Hraise e eq_refl) as [-> | ->];
      (split_and!; [| |intros func'|done]); try (split; [done|]); try done;
      by intros [k ?].
Qed.
End group_facts.

(** ** The registry *)

Section registry_facts.
Import SymbolicFunctionGroup SymbolicRegistry.
Context {Handler : Type}.
Variable base : Z.
Implicit Types (s : state (Handler:=Handler)) (σ : heap Handler)
  (name : string) (opset : Z) (func : Handler).

(** The instances stay where they are. *)
Lemma objects_step σ c a :
  is_Some (objects σ !! a) → is_Some (objects (SymbolicFunctionGroup.step base σ c) !! a).
Proof.
  intros Ha. destruct c as [name|self func opset|self func opset|self opset|self opset|self key|self];
    unfold SymbolicFunctionGroup.step.
  - unfold SymbolicFunctionGroup.__init__. simpl. rewrite lookup_insert.
    case_decide; [by eexists|done].
  - destruct (objects σ !! self) as [g|] eqn:Hg.
    + rewrite (add_eq _ _ _ _ _ Hg). simpl. rewrite lookup_insert. by case_decide.
    + unfold add. by rewrite (load_None _ _ _ Hg).
  - destruct (objects σ !! self) as [g|] eqn:Hg.
    + rewrite (add_custom_eq _ _ _ _ _ Hg). simpl. rewrite lookup_insert. by case_decide.
    + unfold add_custom, update_functions, load, mbind, M_bind, bind. by rewrite Hg.
  - destruct (objects σ !! self) as [g|] eqn:Hg.
    + destruct (OverrideDict._overrides (_functions g) !! opset) as [func|] eqn:Ho.
      * rewrite (remove_custom_present _ _ _ _ _ Hg Ho). simpl.
        rewrite lookup_insert. by case_decide.
      * by rewrite (remove_custom_absent _ _ _ _ Hg Ho).
    + unfold remove_custom. by rewrite (load_None _ _ _ Hg).
  - by rewrite (proj1 (get_state base self opset σ)).
  - rewrite getitem_eq. pose proof (proj1 (get_state base self key σ)) as H.
    destruct (get base self key σ) as [[[func|]|e] σ']; simpl in *; by rewrite H.
  - by rewrite get_min_supported_state.
Qed.

Lemma register_invalid name opset func custom s :
  str_in "::" name = false →
  register name opset func custom s =
    (Raise (ValueError
              ("The name must be in the form of 'domain::op', not '" +:+ name +:+ "'")),
     s).
Proof. intros H. unfold register. by rewrite H. Qed.

(** [register] with a name of the form [domain::op]: the new instance, the
    entry of the name, and [add] or [add_custom] on the group of the name. *)
Lemma register_valid name opset func custom s :
  str_in "::" name = true →
  register name opset func custom s =
    let σ1 := (SymbolicFunctionGroup.__init__ name s.2).2 in
    let group := default (fresh (dom (objects s.2))) (_registry s.1 !! name) in
    let reg := match _registry s.1 !! name with
               | Some _ => s.1
               | None => SymbolicRegistry.mk (<[name := group]> (_registry s.1))
               end in
    let '(r, σ2) := (if custom then add_custom group func opset
                     else add group func opset) σ1 in
    (r, (reg, σ2)).
Proof.
  intros H. unfold register. rewrite H. simpl.
  unfold mbind, M_bind, bind, on_heap, setdefault, SymbolicFunctionGroup.__init__. simpl.
  destruct (_registry s.1 !! name) as [g0|]; simpl; by destruct custom.
Qed.

Lemma state_wf_init : state_wf base (init_state (Handler:=Handler)).
Proof.
  split; [apply heap_wf_empty|]. intros name a. simpl. by rewrite lookup_empty.
Qed.

Lemma state_wf_heap_step s c :
  state_wf base s → state_wf base (s.1, SymbolicFunctionGroup.step base s.2 c).
Proof.
  intros [Hwf Hreg]. split; simpl.
  - by apply heap_wf_step.
  - intros name a Ha. by apply objects_step, (Hreg name).
Qed.

Lemma state_wf_register name opset func custom s :
  state_wf base s → state_wf base (register name opset func custom s).2.
Proof.
  intros Hs. destruct (str_in "::" name) eqn:Hname.
  2:{ by rewrite register_invalid. }
  rewrite register_valid by done. cbv zeta.
  pose proof (state_wf_heap_step s (New name) Hs) as [Hwf1 Hreg1]. simpl in Hwf1, Hreg1.
  set (σ1 := (SymbolicFunctionGroup.__init__ name s.2).2) in *.
  set (group := default _ _).
  set (reg := match _registry s.1 !! name with Some _ => _ | None => _ end).
  assert (Hreg : ∀ n a, _registry reg !! n = Some a → is_Some (objects σ1 !! a)).
  { intros n a. subst reg group. destruct (_registry s.1 !! name) as [g0|] eqn:E; [apply Hreg1|].
    simpl. rewrite lookup_insert. case_decide; [|apply Hreg1].
    intros [= <-]. unfold σ1, SymbolicFunctionGroup.__init__. simpl.
    rewrite lookup_insert_eq. by eexists. }
  pose proof (state_wf_heap_step (reg, σ1)
                (if custom then AddCustom group func opset else Add group func opset)) as Hstep.
  destruct custom; simpl in Hstep.
  - destruct (add_custom group func opset σ1) as [r σ2]. by apply Hstep.
  - destruct (add group func opset σ1) as [r σ2]. by apply Hstep.
Qed.

Lemma state_wf_step s c : state_wf base s → state_wf base (SymbolicRegistry.step base s c).
Proof.
  intros Hs. destruct c as [name opset func custom|name opset|name version|c];
    unfold SymbolicRegistry.step.
  - by apply state_wf_register.
  - unfold unregister, gets, mbind, M_bind, bind, mret, M_ret, ret, on_heap.
    destruct (_registry s.1 !! name) as [group|]; [|done].
    pose proof (state_wf_heap_step s (RemoveCustom group opset) Hs) as H. simpl in H.
    by destruct (remove_custom group opset s.2).
  - unfold is_registered_op, get_function_group, gets, mbind, M_bind, bind, mret,
      M_ret, ret, on_heap.
    destruct (_registry s.1 !! name) as [group|]; [|done].
    pose proof (state_wf_heap_step s (Get group version) Hs) as H. simpl in H.
    by destruct (get base group version s.2) as [[r|e] σ'].
  - by apply state_wf_heap_step.
Qed.

Lemma state_wf_run cs s : state_wf base s → state_wf base (SymbolicRegistry.run base cs s).
Proof.
  revert s. induction cs as [|c cs IH]; intros s Hs; [done|].
  apply IH. by apply state_wf_step.
Qed.

(** The queries on a name whose group has a function at [version]. *)
Lemma query_registered s name version a g func :
  state_wf base s →
  _registry s.1 !! name = Some a →
  objects s.2 !! a = Some g →
  OverrideDict._merged (_functions g) !! version = Some func →
  (is_registered_op base name version s).1 = Ok true
  ∧ (get_function_group name s).1 = Ok (Some a)
  ∧ (get base a version s.2).1 = Ok (Some func)
  ∧ (get base a version (is_registered_op base name version s).2.2).1 = Ok (Some func).
Proof.
  intros [Hwf Hreg] Ha Hg Hm.
  assert (Hget : (get base a version s.2).1 = Ok (Some func)).
  { rewrite (get_wf base a version s.2 g Hwf Hg). by apply get_wrapped_exact. }
  pose proof (heap_wf_get base a version s.2 Hwf) as Hwf'.
  destruct (get_state base a version s.2) as [Hobj _].
  unfold is_registered_op, get_function_group, gets, mbind, M_bind, bind, mret,
    M_ret, ret, on_heap. simpl. rewrite Ha.
  destruct (get base a version s.2) as [r σ'] eqn:E. simpl in Hget, Hobj, Hwf'. subst r.
  simpl. split_and!; [done|done|done|].
  rewrite (get_wf base a version σ' g Hwf'); [by apply get_wrapped_exact|].
  by rewrite Hobj.
Qed.

(** C5. [register] with a name that does not contain [::] raises
    [ValueError] and leaves the registry and the heap of its groups as they
    were: no instance is made and [all_functions] returns the same names. *)
Theorem register_invalid_name_raises
    (s : state (Handler:=Handler)) (name : string) (opset : Z) (func : Handler)
    (custom : bool) :
  str_in "::" name = false →
  (∃ msg, (register name opset func custom s).1 = Raise (ValueError msg))
  ∧ (register name opset func custom s).2 = s
  ∧ (all_functions (register name opset func custom s).2).1 = (all_functions s).1.
Proof.
  intros H. rewrite (register_invalid _ _ _ _ _ H). simpl. split; [by eexists|done].
Qed.

(** C6. On a registry that any sequence of calls has made, where the group
    of [name], if there is one, has no override at [version]: after
    [register(name, version, func)] with a name of the form [domain::op],
    [is_registered_op(name, version)] is [True] and
    [get_function_group(name).get(version)] is [func], asked before or after
    [is_registered_op]. *)
Theorem register_then_lookup
    (cs : list (SymbolicRegistry.call Handler)) (name : string) (version : Z)
    (func : Handler) :
  let s := SymbolicRegistry.run base cs init_state in
  str_in "::" name = true →
  (∀ a g, _registry s.1 !! name = Some a → objects s.2 !! a = Some g →
          OverrideDict._overrides (_functions g) !! version = None) →
  let s1 := (register name version func false s).2 in
  (register name version func false s).1 = Ok tt
  ∧ (is_registered_op base name version s1).1 = Ok true
  ∧ ∃ group,
      (get_function_group name s1).1 = Ok (Some group)
      ∧ (get base group version s1.2).1 = Ok (Some func)
      ∧ (get base group version (is_registered_op base name version s1).2.2).1
        = Ok (Some func).
Proof.
  intros s Hname Hno s1.
  assert (Hs : state_wf base s) by apply state_wf_run, state_wf_init.
  assert (Hs1 : state_wf base s1) by by apply state_wf_register.
  destruct Hs as [Hwf Hreg].
  pose proof (is_fresh (dom (objects s.2))) as Hfresh.
  cut ((register name version func false s).1 = Ok tt
       ∧ ∃ a g, _registry s1.1 !! name = Some a ∧ objects s1.2 !! a = Some g
                ∧ OverrideDict._merged (_functions g) !! version = Some func).
  { intros (Hok & a & g & Ha & Hg & Hm).
    destruct (query_registered s1 name version a g func Hs1 Ha Hg Hm) as (? & ? & ? & ?).
    split; [done|]. split; [done|]. by exists a. }
  subst s1. clear Hs1. rewrite register_valid by done. cbv zeta.
  unfold SymbolicFunctionGroup.__init__. simpl.
  set (fresh_a := fresh (dom (objects s.2))) in *.
  destruct (_registry s.1 !! name) as [g0|] eqn:Hlook; simpl.
  - destruct (Hreg _ _ Hlook) as [g Hg].
    assert (g0 ≠ fresh_a).
    { intros ->. apply Hfresh, elem_of_dom. by eexists. }
    erewrite add_eq by (simpl; rewrite lookup_insert_ne; done).
    split; [done|]. eexists g0, _. split; [done|]. simpl.
    split; [apply lookup_insert_eq|]. simpl. unfold OverrideDict.merge.
    rewrite lookup_union_r by eauto. apply lookup_insert_eq.
  - erewrite add_eq by (simpl; apply lookup_insert_eq).
    split; [done|]. eexists fresh_a, _. simpl.
    split; [apply lookup_insert_eq|]. split; [apply lookup_insert_eq|].
    simpl. unfold OverrideDict.merge. rewrite lookup_union_r by apply lookup_empty.
    apply lookup_insert_eq.
Qed.
End registry_facts.

(** ** Concrete runs

    The handlers are named by strings and the base version is opset 9. *)

Section concrete_runs.
Import SymbolicFunctionGroup Samples.

(** C1. With base version 9, target 8 and the one available version 13, no
    version is between the base and the target, either way round, and the
    dispatch does not return [None]: its [assert] fails. So does
    [is_registered_op("aten::foo", 8)] on a registry whose one call was
    [register("aten::foo", 13, func)]. A target above the base between two
    available versions that miss the range, 12 with 5 and 15, fails the
    [assert] as well. *)
Theorem dispatch_no_match_fails_assert :
  ([13] ≠ [] ∧ (∀ v : Z, v ∈ [13] → ¬ 9 ≤ v ≤ 8) ∧ (∀ v : Z, v ∈ [13] → ¬ 8 ≤ v ≤ 9)
   ∧ Dispatch._dispatch_opset_version 9 8 [13] = Raise AssertionError)
  ∧ (SymbolicRegistry.is_registered_op 9 "aten::foo" 8
       (SymbolicRegistry.run 9
          [SymbolicRegistry.Register "aten::foo" 13 "func13"%string false]
          SymbolicRegistry.init_state)).1
    = Raise AssertionError
  ∧ ((∀ v : Z, v ∈ [5; 15] → ¬ 9 ≤ v ≤ 12) ∧ (∀ v : Z, v ∈ [5; 15] → ¬ 12 ≤ v ≤ 9)
     ∧ Dispatch._dispatch_opset_version 9 12 [5; 15] = Raise AssertionError).
Proof.
  repeat split; try done; try (vm_compute; reflexivity);
    intros v Hv; set_unfold in Hv; lia.
Qed.

Lemma dispatch_nearest_toward_base_witness :
  (∃ m, Dispatch._dispatch_opset_version 9 12 [9; 11; 13] = Ok (Some m)
        ∧ m ∈ [9; 11; 13] ∧ 9 ≤ m ≤ 12
        ∧ ∀ v, v ∈ [9; 11; 13] → 9 ≤ v ≤ 12 → v ≤ m)
  ∧ (∃ m, Dispatch._dispatch_opset_version 9 7 [8; 11; 13] = Ok (Some m)
          ∧ m ∈ [8; 11; 13] ∧ 7 ≤ m ≤ 9
          ∧ ∀ v, v ∈ [8; 11; 13] → 7 ≤ v ≤ 9 → m ≤ v).
Proof.
  split.
  - apply (proj1 (dispatch_nearest_toward_base 9 12 [9; 11; 13])).
    exists 11. split; [set_solver|lia].
  - apply (proj1 (proj2 (dispatch_nearest_toward_base 9 7 [8; 11; 13]))).
    + intros (v & _ & Hv). lia.
    + exists 8. split; [set_solver|lia].
Defined.

Example three_versions_get :
  (get 9 1 12 (run 9 three_versions empty_heap)).1 = Ok (Some "func11"%string)
  ∧ (get 9 1 10 (run 9 three_versions empty_heap)).1 = Ok (Some "func9"%string)
  ∧ (get 9 1 8 (run 9 three_versions empty_heap)).1 = Ok (Some "func9"%string)
  ∧ (get 9 1 14 (run 9 three_versions empty_heap)).1 = Ok (Some "func13"%string).
Proof. repeat split; vm_compute; reflexivity. Qed.

Example scenario :
  (SymbolicRegistry.is_registered_op 9 "aten::foo" 12
     (SymbolicRegistry.run 9 scenario_base SymbolicRegistry.init_state)).1 = Ok true
  ∧ (get 9 1 12 (SymbolicRegistry.run 9 scenario_base SymbolicRegistry.init_state).2).1
    = Ok (Some "func9"%string)
  ∧ (get 9 1 12 (SymbolicRegistry.run 9 scenario_custom SymbolicRegistry.init_state).2).1
    = Ok (Some "custom12"%string)
  ∧ (get 9 1 12 (SymbolicRegistry.run 9 scenario_removed SymbolicRegistry.init_state).2).1
    = Ok (Some "func9"%string).
Proof. repeat split; vm_compute; reflexivity. Qed.

Lemma foo_group_reached : objects (run 9 foo_calls empty_heap) !! 1%positive = Some foo_group.
Proof. vm_compute. reflexivity. Defined.

Lemma get_reflects_current_functions_witness :
  (get 9 1 12 (run 9 foo_calls empty_heap)).1 = get__wrapped__ 9 foo_group 12
  ∧ get__wrapped__ 9 foo_group 12 = Ok (Some "custom12").
Proof.
  split.
  - apply (get_reflects_current_functions 9 foo_calls 1 12 foo_group).
    exact foo_group_reached.
  - vm_compute. reflexivity.
Defined.

Lemma custom_wins_until_removed_witness :
  ((before ← get 9 1 9;
    remove_custom 1 9;;
    after ← get 9 1 9;
    mret (before, after)) (run 9 both_calls empty_heap)).1
  = Ok (Some "custom9", Some "func9").
Proof.
  apply (custom_wins_until_removed 9 both_calls 1 9 both_group "func9" "custom9").
  - vm_compute. reflexivity.
  - vm_compute. reflexivity.
  - vm_compute. reflexivity.
Defined.

Lemma remove_custom_absent_is_noop_witness :
  remove_custom 1 12 (run 9 both_calls empty_heap) =
    (Ok tt, Heap (objects (run 9 both_calls empty_heap))
              (get_cache (run 9 both_calls empty_heap))
              (NoCustomFunction "aten::foo" 12 :: warnings (run 9 both_calls empty_heap))).
Proof.
  apply (proj1 (remove_custom_absent_is_noop (run 9 both_calls empty_heap) 1 12 both_group
                  ltac:(vm_compute; reflexivity))).
  vm_compute. reflexivity.
Defined.

Lemma get_min_supported_least_merged_key_witness :
  ∃ m, get_min_supported 1 (run 9 foo_calls empty_heap) = (Ok m, run 9 foo_calls empty_heap)
       ∧ m ∈ dom (OverrideDict._merged (_functions foo_group))
       ∧ ∀ k, k ∈ dom (OverrideDict._merged (_functions foo_group)) → m ≤ k.
Proof.
  apply (proj1 (proj2 (get_min_supported_least_merged_key 9 foo_calls 1 foo_group
                         foo_group_reached))).
  left. simpl. intros E. apply (f_equal (lookup 9)) in E. vm_compute in E. discriminate E.
Defined.

Lemma register_invalid_name_raises_witness :
  (∃ msg, (SymbolicRegistry.register "badname" 9 "func9"%string false no_names).1
          = Raise (ValueError msg))
  ∧ (SymbolicRegistry.register "badname" 9 "func9"%string false no_names).2 = no_names
  ∧ (SymbolicRegistry.all_functions
       (SymbolicRegistry.register "badname" 9 "func9"%string false no_names).2).1
    = (SymbolicRegistry.all_functions no_names).1.
Proof.
  apply (register_invalid_name_raises no_names "badname" 9 "func9"%string false).
  reflexivity.
Defined.

Lemma register_then_lookup_witness :
  let s1 := (SymbolicRegistry.register "aten::foo" 14 "func14"%string false
               (SymbolicRegistry.run 9 foo_registered SymbolicRegistry.init_state)).2 in
  (SymbolicRegistry.register "aten::foo" 14 "func14"%string false
     (SymbolicRegistry.run 9 foo_registered SymbolicRegistry.init_state)).1 = Ok tt
  ∧ (SymbolicRegistry.is_registered_op 9 "aten::foo" 14 s1).1 = Ok true
  ∧ ∃ group,
      (SymbolicRegistry.get_function_group "aten::foo" s1).1 = Ok (Some group)
      ∧ (get 9 group 14 s1.2).1 = Ok (Some "func14"%string)
      ∧ (get 9 group 14 (SymbolicRegistry.is_registered_op 9 "aten::foo" 14 s1).2.2).1
        = Ok (Some "func14"%string).
Proof.
  apply (register_then_lookup 9 foo_registered "aten::foo" 14 "func14"%string).
  - reflexivity.
  - intros a g Ha Hg. vm_compute in Ha. injection Ha as <-.
    vm_compute in Hg. injection Hg as <-. reflexivity.
Defined.
End concrete_runs.

(** * Further properties *)

(** ** The version dispatch, as its callers see it *)

Section dispatch_more.
Import Dispatch.
Variable base : Z.

Lemma sorted_Permutation (xs ys : list Z) : xs ≡ₚ ys → sorted xs = sorted ys.
Proof.
  intros Hp. apply (StronglySorted_unique Z.le); try apply sorted_StronglySorted.
  unfold sorted. by rewrite !merge_sort_Permutation.
Qed.

Lemma head_sorted_elem_of (xs : list Z) first rest :
  sorted xs = first :: rest → first ∈ xs.
Proof. intros E. apply elem_of_sorted. rewrite E. by left. Qed.

Lemma last_elem_of (l : list Z) d : l ≠ [] → List.last l d ∈ l.
Proof.
  induction l as [|x [|y l] IH]; intros Hne; [done|by left|].
  right. by apply IH.
Qed.

(** The versions on which an outcome of the dispatch rests: a version it
    returns, with its range; no version in either range otherwise. *)
Lemma dispatch_cases target (xs : list Z) :
  (∃ m, _dispatch_opset_version base target xs = Ok (Some m)
        ∧ m ∈ xs ∧ base ≤ m ≤ target
        ∧ ∀ v, v ∈ xs → base ≤ v ≤ target → v ≤ m)
  ∨ (∃ m, _dispatch_opset_version base target xs = Ok (Some m)
          ∧ m ∈ xs ∧ target ≤ m ≤ base
          ∧ (∀ v, v ∈ xs → target ≤ v ≤ base → m ≤ v)
          ∧ ∀ v, v ∈ xs → ¬ base ≤ v ≤ target)
  ∨ ((_dispatch_opset_version base target xs = Ok None
      ∨ _dispatch_opset_version base target xs = Raise AssertionError ∧ xs ≠ [])
     ∧ ∀ v, v ∈ xs → ¬ base ≤ v ≤ target ∧ ¬ target ≤ v ≤ base).
Proof.
  destruct xs as [|x xs'].
  { right. right. split; [by left|]. by intros v ?%elem_of_nil. }
  rewrite dispatch_cons.
  destruct (first_match _ (reverse _)) as [m|] eqn:E1.
  { left. exists m. split; [done|]. by apply first_match_down. }
  assert (Hd : ∀ v, v ∈ x :: xs' → ¬ base ≤ v ≤ target).
  { intros v Hv Hr. rewrite first_match_None in E1.
    specialize (E1 v). rewrite elem_of_reverse, elem_of_sorted in E1.
    apply down_ok_spec in Hr. rewrite E1 in Hr; done. }
  destruct (first_match (up_ok _ _) _) as [m|] eqn:E2.
  { right. left. exists m. split; [done|].
    apply first_match_up in E2 as (? & ? & ?). done. }
  right. right. split.
  - destruct (assert_cond _ _ _); [by left|by right].
  - intros v Hv. split; [by apply Hd|]. intros Hr. rewrite first_match_None in E2.
    specialize (E2 v). rewrite elem_of_sorted in E2.
    apply up_ok_spec in Hr. rewrite E2 in Hr; done.
Qed.

(** X1. The order in which the collection gives its versions does not
    matter: two lists of available versions that are permutations of each
    other dispatch every target alike. *)
Theorem dispatch_permutation (target : Z) (xs ys : list Z) :
  xs ≡ₚ ys →
  _dispatch_opset_version base target xs = _dispatch_opset_version base target ys.
Proof.
  intros Hp. destruct xs as [|x xs'], ys as [|y ys'].
  - done.
  - by apply Permutation_nil_l in Hp.
  - by apply Permutation_nil_r in Hp.
  - rewrite !dispatch_cons. by rewrite (sorted_Permutation _ _ Hp).
Qed.

(** X2. A version that the dispatch returns is an available one and lies
    between the base version and the target, on the side of the base that
    the target is on; when it returns [None] or fails its [assert], no
    available version lies between the two, and it raises nothing but
    [AssertionError]. *)
Theorem dispatch_outcome (target : Z) (V : list Z) :
  match _dispatch_opset_version base target V with
  | Ok (Some m) => m ∈ V ∧ (base ≤ m ≤ target ∨ target ≤ m ≤ base)
  | Ok None => ∀ v, v ∈ V → ¬ base ≤ v ≤ target ∧ ¬ target ≤ v ≤ base
  | Raise e =>
      e = AssertionError ∧ V ≠ []
      ∧ ∀ v, v ∈ V → ¬ base ≤ v ≤ target ∧ ¬ target ≤ v ≤ base
  end.
Proof.
  destruct (dispatch_cases target V)
    as [(m & -> & ? & ? & _)|[(m & -> & ? & ? & _)|[[-> | [-> ?]] ?]]]; auto.
Qed.

(** X3. A version that the dispatch returns for some target is returned
    for itself as a target. *)
Theorem dispatch_idempotent (target m : Z) (V : list Z) :
  _dispatch_opset_version base target V = Ok (Some m) →
  _dispatch_opset_version base m V = Ok (Some m).
Proof. intros Hm. by apply dispatch_exact, (dispatch_Some base target). Qed.

(** X4. The dispatch is monotone in the target: of two targets that both
    resolve, the greater one resolves to a version that is not smaller. *)
Theorem dispatch_monotone (t1 t2 m1 m2 : Z) (V : list Z) :
  t1 ≤ t2 →
  _dispatch_opset_version base t1 V = Ok (Some m1) →
  _dispatch_opset_version base t2 V = Ok (Some m2) →
  m1 ≤ m2.
Proof.
  intros Hle H1 H2.
  destruct (dispatch_cases t1 V)
    as [(n1 & E1 & Hin1 & Hr1 & Hmax1)|[(n1 & E1 & Hin1 & Hr1 & Hmin1 & _)|[[E1|[E1 _]] _]]];
    rewrite H1 in E1; try done; injection E1 as <-;
  destruct (dispatch_cases t2 V)
    as [(n2 & E2 & Hin2 & Hr2 & Hmax2)|[(n2 & E2 & Hin2 & Hr2 & Hmin2 & _)|[[E2|[E2 _]] _]]];
    rewrite H2 in E2; try done; injection E2 as <-.
  - apply Hmax2; [done|lia].
  - lia.
  - lia.
  - apply Hmin1; [done|lia].
Qed.

(** X5. The two cases that the [assert] names do give [None]: a target at
    or above the base version with every available version above the
    target, and a target above the base version with every available version
    below the base. *)
Theorem dispatch_None_asserted (target : Z) (V : list Z) :
  (base ≤ target ∧ ∀ v, v ∈ V → target < v)
  ∨ (base < target ∧ ∀ v, v ∈ V → v < base) →
  _dispatch_opset_version base target V = Ok None.
Proof.
  intros Hcase. destruct V as [|x V']; [done|].
  rewrite dispatch_no_match; [|done|intros v Hv; destruct Hcase as [[? H]|[? H]];
                                specialize (H v Hv); lia..].
  destruct (sorted (x :: V')) as [|first rest] eqn:Es.
  { by apply sorted_nil_inv in Es. }
  rewrite <- Es.
  assert (assert_cond base target (sorted (x :: V')) = true) as ->; [|done].
  rewrite Es. unfold assert_cond. apply orb_true_iff.
  destruct Hcase as [[Hb H]|[Hb H]]; [left|right]; apply andb_true_iff.
  - split; [by apply Z.leb_le|]. apply Z.ltb_lt, H. by eapply head_sorted_elem_of.
  - split; [|by apply Z.ltb_lt]. apply Z.ltb_lt, H.
    apply elem_of_sorted. rewrite Es. by apply last_elem_of.
Qed.
End dispatch_more.

(** ** The override dictionary, layer by layer *)

Section override_dict_more.
Import OverrideDict.
Context {V : Type}.
Implicit Types (d : OverrideDict.t V).

Lemma consistent_foldl (os : list (op V)) d :
  consistent d → consistent (foldl OverrideDict.apply d os).
Proof.
  revert d. induction os as [|o os IH]; intros d Hd; [done|].
  simpl. by apply IH, consistent_apply.
Qed.

Lemma consistent_reached (os : list (op V)) :
  consistent (foldl OverrideDict.apply __init__ os).
Proof. apply consistent_foldl, consistent_init. Qed.

Lemma remove_override_fresh d key value :
  consistent d → _overrides d !! key = None →
  remove_override (override d key value) key = d.
Proof.
  destruct d as [b o m]. unfold consistent, remove_override, override. simpl.
  intros -> Ho. by rewrite delete_insert_id.
Qed.

(** X6. Overrides do not stack. [remove_override] after [override] on the
    same key gives what [remove_override] alone gives, so an earlier
    override of the key does not come back; on a dictionary that calls of
    the methods have made and that has no override of the key, the two
    calls give the dictionary back. *)
Theorem override_then_remove (os : list (op V)) (key : Z) (value : V) :
  let d := foldl OverrideDict.apply __init__ os in
  remove_override (override d key value) key = remove_override d key
  ∧ (_overrides d !! key = None → remove_override (override d key value) key = d).
Proof.
  intros d. split.
  - unfold remove_override, override. simpl. by rewrite delete_insert_eq.
  - apply remove_override_fresh, consistent_reached.
Qed.

(** X7. A base entry written under an override stays hidden until the
    override is removed: on a dictionary that calls of the methods have
    made, [__setitem__] on an overridden key changes the base layer and
    leaves the merged dictionary as it is, and [remove_override] then shows
    the new base value. *)
Theorem setitem_under_override
    (os : list (op V)) (key : Z) (custom value : V) :
  let d := foldl OverrideDict.apply __init__ os in
  _overrides d !! key = Some custom →
  _merged (__setitem__ d key value) = _merged d
  ∧ OverrideDict.get (__setitem__ d key value) key None = Some custom
  ∧ _base (__setitem__ d key value) !! key = Some value
  ∧ OverrideDict.get (remove_override (__setitem__ d key value) key) key None
    = Some value.
Proof.
  intros d Ho. pose proof (consistent_reached os) as Hd. fold d in Hd.
  assert (Hm : _merged (__setitem__ d key value) = _merged d).
  { rewrite Hd. unfold __setitem__, merge. simpl. apply map_eq. intros k.
    rewrite !lookup_union. destruct (decide (k = key)) as [->|Hne].
    - rewrite Ho. by rewrite lookup_insert_eq; destruct (_base d !! key).
    - by rewrite lookup_insert_ne. }
  split_and!.
  - done.
  - unfold OverrideDict.get. rewrite Hm, (merged_lookup d key Hd), Ho. done.
  - simpl. apply lookup_insert_eq.
  - unfold OverrideDict.get, remove_override, __setitem__, merge. simpl.
    rewrite lookup_union_r by apply lookup_delete_eq. by rewrite lookup_insert_eq.
Qed.

(** X8. On a dictionary that calls of the methods have made, the readers
    agree with the two layers: a key is contained exactly when it is in the
    base or overridden, the length counts the keys of the two layers
    together, and the dictionary is true exactly when a layer has a key. *)
Theorem readers_agree_with_layers (os : list (op V)) :
  let d := foldl OverrideDict.apply __init__ os in
  (∀ key, __contains__ d key = in_base d key || overridden d key)
  ∧ __len__ d = size (dom (_base d) ∪ dom (_overrides d))
  ∧ (__bool__ d = true ↔ _base d ≠ ∅ ∨ _overrides d ≠ ∅).
Proof.
  intros d. pose proof (consistent_reached os) as Hd. fold d in Hd. split_and!.
  - intros key. unfold __contains__, in_base, overridden.
    rewrite (merged_lookup d key Hd).
    destruct (_overrides d !! key) as [c|] eqn:Ho.
    + rewrite !bool_decide_eq_true_2 by eauto. by rewrite orb_true_r.
    + rewrite (bool_decide_eq_false_2 (is_Some None)) by (by intros [? ?]).
      by rewrite orb_false_r.
  - unfold __len__. rewrite <- size_dom, Hd. unfold merge.
    by rewrite dom_union_L, (comm_L (∪)).
  - unfold __bool__. rewrite negb_true_iff, bool_decide_eq_false, Hd. unfold merge.
    split.
    + intros Hne. destruct (decide (_overrides d = ∅)) as [Ho|Ho]; [|by right].
      left. intros Hb. apply Hne. rewrite Ho, Hb. apply (left_id_L ∅ (∪)).
    + intros Hne Hu. pose proof (map_positive_l _ _ Hu) as Ho.
      rewrite Ho, (left_id_L ∅ (∪)) in Hu. by destruct Hne.
Qed.
End override_dict_more.

(** ** Function groups: the cache, new instances and several instances *)

Section group_more.
Import SymbolicFunctionGroup.
Context {Handler : Type}.
Variable base : Z.
Implicit Types (σ : heap Handler) (g : SymbolicFunctionGroup.t Handler)
  (self : positive) (func : Handler) (opset : Z).

Lemma heap_wf_reached (cs : list (call Handler)) : heap_wf base (run base cs empty_heap).
Proof. apply heap_wf_run, heap_wf_empty. Qed.

(** What [get] returns on a heap that keeps the invariant. *)
Lemma get_result σ self opset :
  heap_wf base σ →
  (get base self opset σ).1 =
    match objects σ !! self with
    | Some g => get__wrapped__ base g opset
    | None => Raise AttributeError
    end.
Proof.
  intros Hwf. destruct (objects σ !! self) as [g|] eqn:Hg.
  - by apply get_wf.
  - destruct (get_cache σ !! (self, opset)) as [r|] eqn:Hc.
    + destruct (proj2 Hwf _ _ _ Hc) as (g & Hg' & _). congruence.
    + by rewrite (get_dangling _ _ _ _ Hc Hg).
Qed.

(** X9. [get] is memoized and touches nothing but its cache: it leaves the
    instances and the warnings as they are, a call that raises leaves the
    whole state as it is, and after a call that returned, the same call
    returns the same value and changes nothing. *)
Theorem get_memoized (σ : heap Handler) (self : positive) (opset : Z) :
  objects (get base self opset σ).2 = objects σ
  ∧ warnings (get base self opset σ).2 = warnings σ
  ∧ (∀ e, (get base self opset σ).1 = Raise e → (get base self opset σ).2 = σ)
  ∧ (∀ r, (get base self opset σ).1 = Ok r →
          get base self opset (get base self opset σ).2
          = (Ok r, (get base self opset σ).2)).
Proof.
  destruct (get_state base self opset σ) as [Hobj Hw]. split_and!; [done|done|..].
  - intros e. destruct (get_cache σ !! (self, opset)) as [r|] eqn:Hc.
    { by rewrite (get_hit _ _ _ _ _ Hc). }
    destruct (objects σ !! self) as [g|] eqn:Hg.
    + rewrite (get_miss _ _ _ _ _ Hc Hg). by destruct (get__wrapped__ _ _ _).
    + by rewrite (get_dangling _ _ _ _ Hc Hg).
  - intros r. destruct (get_cache σ !! (self, opset)) as [r'|] eqn:Hc.
    { rewrite (get_hit _ _ _ _ _ Hc). simpl. intros [= <-]. by apply get_hit. }
    destruct (objects σ !! self) as [g|] eqn:Hg.
    + rewrite (get_miss _ _ _ _ _ Hc Hg).
      destruct (get__wrapped__ _ _ _) as [r'|e]; [|done].
      simpl. intros [= <-]. apply get_hit. simpl. apply lookup_insert_eq.
    + by rewrite (get_dangling _ _ _ _ Hc Hg).
Qed.

(** X10. A new instance resolves nothing. After any sequence of calls, the
    constructor returns an address that no instance had, and on it [get]
    returns [None], [__getitem__] raises [KeyError] and [get_min_supported]
    raises [ValueError], whatever the opset. *)
Theorem new_group_resolves_nothing
    (cs : list (call Handler)) (name : string) (opset : Z) :
  let σ := run base cs empty_heap in
  ∃ self,
    (__init__ name σ).1 = Ok self
    ∧ objects σ !! self = None
    ∧ (get base self opset (__init__ name σ).2).1 = Ok None
    ∧ (__getitem__ base self opset (__init__ name σ).2).1 = Raise (KeyError opset)
    ∧ ∃ msg, (get_min_supported self (__init__ name σ).2).1 = Raise (ValueError msg).
Proof.
  intros σ. exists (fresh (dom (objects σ))).
  pose proof (is_fresh (dom (objects σ))) as Hfresh.
  assert (Hwf : heap_wf base (__init__ name σ).2) by apply heap_wf_init, heap_wf_reached.
  assert (Hnew : objects (__init__ name σ).2 !! fresh (dom (objects σ))
                 = Some (mk name OverrideDict.__init__)).
  { unfold __init__. simpl. apply lookup_insert_eq. }
  assert (Hget : (get base (fresh (dom (objects σ))) opset (__init__ name σ).2).1 = Ok None).
  { rewrite (get_result _ _ _ Hwf), Hnew. by apply get_wrapped_empty. }
  split_and!; [done| |done|..].
  - by apply not_elem_of_dom.
  - rewrite getitem_eq.
    destruct (get base _ opset (__init__ name σ).2) as [r σ']. simpl in Hget. by subst r.
  - unfold get_min_supported, load, mbind, M_bind, bind, lift_result.
    rewrite Hnew. by eexists.
Qed.

(** X11. The instances do not interfere, although they share the cache of
    [get]: after any sequence of calls, [add], [add_custom] or
    [remove_custom] on one instance leaves what [get] returns on every
    other address as it was. *)
Theorem mutation_leaves_other_groups
    (cs : list (call Handler)) (a b : positive) (func : Handler) (opset version : Z) :
  a ≠ b →
  let σ := run base cs empty_heap in
  (get base b version (add a func opset σ).2).1 = (get base b version σ).1
  ∧ (get base b version (add_custom a func opset σ).2).1 = (get base b version σ).1
  ∧ (get base b version (remove_custom a opset σ).2).1 = (get base b version σ).1.
Proof.
  intros Hab σ. pose proof (heap_wf_reached cs) as Hwf. fold σ in Hwf.
  assert (Hother : ∀ c, (∀ σ', heap_wf base σ' → heap_wf base (step base σ' c)) →
                        objects (step base σ c) !! b = objects σ !! b →
                        (get base b version (step base σ c)).1 = (get base b version σ).1).
  { intros c Hc Hb. rewrite !get_result by auto. by rewrite Hb. }
  split_and!.
  - apply (Hother (Add a func opset)); [intros; by apply heap_wf_step|].
    simpl. destruct (objects σ !! a) as [g|] eqn:Hg.
    + rewrite (add_eq _ _ _ _ _ Hg). simpl. by rewrite lookup_insert_ne.
    + unfold add. by rewrite (load_None _ _ _ Hg).
  - apply (Hother (AddCustom a func opset)); [intros; by apply heap_wf_step|].
    simpl. destruct (objects σ !! a) as [g|] eqn:Hg.
    + rewrite (add_custom_eq _ _ _ _ _ Hg). simpl. by rewrite lookup_insert_ne.
    + unfold add_custom, update_functions, load, mbind, M_bind, bind. by rewrite Hg.
  - apply (Hother (RemoveCustom a opset)); [intros; by apply heap_wf_step|].
    simpl. destruct (objects σ !! a) as [g|] eqn:Hg.
    + destruct (OverrideDict._overrides (_functions g) !! opset) as [c|] eqn:Ho.
      * rewrite (remove_custom_present _ _ _ _ _ Hg Ho). simpl. by rewrite lookup_insert_ne.
      * by rewrite (remove_custom_absent _ _ _ _ Hg Ho).
    + unfold remove_custom. by rewrite (load_None _ _ _ Hg).
Qed.

(** The state after [get], by its parts. *)
Lemma get_keeps σ self opset :
  heap_wf base σ →
  heap_wf base (get base self opset σ).2
  ∧ objects (get base self opset σ).2 = objects σ
  ∧ warnings (get base self opset σ).2 = warnings σ.
Proof.
  intros Hwf. split; [by apply heap_wf_get|]. apply get_state.
Qed.

(** X12. Registering a base function twice: after any sequence of calls, on
    an instance without an override at [opset], two [add] at [opset] in a
    row both return, the second one issues the warning of an opset that is
    already registered, and [get(opset)] returns the second function. *)
Theorem add_twice_replaces_and_warns
    (cs : list (call Handler)) (self : positive) (opset : Z)
    (g : SymbolicFunctionGroup.t Handler) (first second : Handler) :
  let σ := run base cs empty_heap in
  objects σ !! self = Some g →
  OverrideDict._overrides (_functions g) !! opset = None →
  let σ1 := (add self first opset σ).2 in
  let σ2 := (add self second opset σ1).2 in
  (add self first opset σ).1 = Ok tt
  ∧ (add self second opset σ1).1 = Ok tt
  ∧ warnings σ2 = AlreadyRegistered (_name g) opset :: warnings σ1
  ∧ (get base self opset σ2).1 = Ok (Some second).
Proof.
  intros σ Hg Ho σ1 σ2. subst σ1 σ2.
  rewrite (add_eq _ _ _ _ _ Hg). simpl.
  erewrite add_eq by (simpl; apply lookup_insert_eq). simpl.
  split_and!; [done|done|..].
  - unfold OverrideDict.in_base. simpl.
    rewrite (bool_decide_eq_true_2 (is_Some (<[opset:=first]> _ !! opset)));
      [done|]. rewrite lookup_insert_eq. by eexists.
  - erewrite get_miss; [|apply lookup_empty|simpl; apply lookup_insert_eq].
    rewrite (get_wrapped_exact _ _ opset second); [done|].
    simpl. unfold OverrideDict.merge. rewrite lookup_union_r by done.
    apply lookup_insert_eq.
Qed.

(** X13. A base function registered under a custom one: after any sequence
    of calls, on an instance with an override at [opset], [add] at [opset]
    leaves [get(opset)] at the custom function, and after
    [remove_custom(opset)] it is the function just added. *)
Theorem add_under_custom
    (cs : list (call Handler)) (self : positive) (opset : Z)
    (g : SymbolicFunctionGroup.t Handler) (custom func : Handler) :
  let σ := run base cs empty_heap in
  objects σ !! self = Some g →
  OverrideDict._overrides (_functions g) !! opset = Some custom →
  ((add self func opset;;
    before ← get base self opset;
    remove_custom self opset;;
    after ← get base self opset;
    mret (before, after)) σ).1
  = Ok (Some custom, Some func).
Proof.
  intros σ Hg Ho. unfold mbind, M_bind, bind.
  rewrite (add_eq _ _ _ _ _ Hg). cbv beta iota.
  set (g1 := mk (_name g) (OverrideDict.__setitem__ (_functions g) opset func)).
  match goal with |- context [get base self opset ?s] => set (σ1 := s) end.
  assert (Hg1 : objects σ1 !! self = Some g1) by apply lookup_insert_eq.
  assert (Ho1 : OverrideDict._overrides (_functions g1) !! opset = Some custom) by done.
  assert (Hget : get base self opset σ1
                 = (Ok (Some custom), set_get_cache <[(self, opset) := Some custom]> σ1)).
  { rewrite (get_miss _ _ _ _ g1); [|apply lookup_empty|done].
    rewrite (get_wrapped_exact _ _ opset custom); [done|].
    simpl. unfold OverrideDict.merge. rewrite lookup_union_l'; [done|by eexists]. }
  rewrite Hget. cbv beta iota.
  erewrite remove_custom_present; [|exact Hg1|exact Ho1]. cbv beta iota.
  erewrite get_miss; [|apply lookup_empty|simpl; apply lookup_insert_eq].
  rewrite (get_wrapped_exact _ _ opset func); [done|].
  simpl. unfold OverrideDict.merge. rewrite lookup_union_r by apply lookup_delete_eq.
  apply lookup_insert_eq.
Qed.

(** X14. A custom function put and taken back: after any sequence of
    calls, on an instance without an override at [opset], [add_custom] at
    [opset] followed by [remove_custom(opset)] returns without a warning
    and leaves every instance as it was; only the cache of [get] is
    emptied. *)
Theorem add_custom_then_remove_custom
    (cs : list (call Handler)) (self : positive) (opset : Z)
    (g : SymbolicFunctionGroup.t Handler) (func : Handler) :
  let σ := run base cs empty_heap in
  objects σ !! self = Some g →
  OverrideDict._overrides (_functions g) !! opset = None →
  (add_custom self func opset;; remove_custom self opset) σ
  = (Ok tt, Heap (objects σ) ∅ (warnings σ)).
Proof.
  intros σ Hg Ho. pose proof (heap_wf_reached cs) as Hwf. fold σ in Hwf.
  unfold mbind, M_bind, bind at 1.
  rewrite (add_custom_eq _ _ _ _ _ Hg).
  erewrite remove_custom_present;
    [|simpl; apply lookup_insert_eq|simpl; apply lookup_insert_eq].
  simpl. f_equal. f_equal.
  rewrite insert_insert_eq.
  rewrite (remove_override_fresh (_functions g) opset func);
    [|by apply (proj1 Hwf self)|done].
  apply insert_id. rewrite Hg. by destruct g.
Qed.
End group_more.

(** ** Names *)

Section names.

Lemma str_in_unfold sub s :
  str_in sub s =
    String.prefix sub s
    || match s with EmptyString => false | String _ s' => str_in sub s' end.
Proof. by destruct s. Qed.

Lemma prefix_spec sub s : String.prefix sub s = true ↔ ∃ post, s = sub +:+ post.
Proof.
  revert s. induction sub as [|c sub IH]; intros s.
  - split; [intros _; by exists s|intros _; by destruct s].
  - destruct s as [|c' s]; simpl.
    + split; [done|]. by intros [post ?].
    + destruct (Ascii.ascii_dec c c') as [->|Hne].
      * rewrite IH. split; intros [post E]; exists post; [by rewrite E|by injection E].
      * split; [done|]. intros [post E]. by injection E.
Qed.

(** [sub in s] holds exactly of the strings that have [sub] inside. *)
Lemma str_in_spec sub s :
  str_in sub s = true ↔ ∃ pre post, s = pre +:+ sub +:+ post.
Proof.
  induction s as [|c s IH]; rewrite str_in_unfold, orb_true_iff, prefix_spec.
  - split.
    + intros [[post E]|?]; [|done]. by exists "", post.
    + intros (pre & post & E). left. destruct pre; [by exists post|done].
  - rewrite IH. split.
    + intros [[post E]|(pre & post & E)]; [by exists "", post|].
      exists (String c pre), post. simpl. by rewrite E.
    + intros (pre & post & E). destruct pre as [|c' pre]; [left; by exists post|].
      right. exists pre, post. by injection E.
Qed.
End names.

(** ** The registry, name by name *)

Section registry_more.
Import SymbolicFunctionGroup SymbolicRegistry Views.
Context {Handler : Type}.
Variable base : Z.
Implicit Types (s : state (Handler:=Handler)) (σ : heap Handler)
  (name : string) (opset : Z) (func : Handler).

Lemma functions_of_Some s name a g :
  _registry s.1 !! name = Some a → objects s.2 !! a = Some g →
  functions_of s name = Some (_functions g).
Proof. intros Ha Hg. unfold functions_of. rewrite Ha. simpl. by rewrite Hg. Qed.

Lemma functions_of_None s name :
  _registry s.1 !! name = None → functions_of s name = None.
Proof. intros Ha. unfold functions_of. by rewrite Ha. Qed.

(** The state that [register] leaves, for a name of the form
    [domain::op]. *)
Lemma register_state name opset func custom s :
  state_wf base s → str_in "::" name = true →
  ∃ a nm ws,
    register name opset func custom s =
      (Ok tt,
       (SymbolicRegistry.mk (<[name := a]> (_registry s.1)),
        Heap (<[a := SymbolicFunctionGroup.mk nm
                        (registered custom opset func
                           (default OverrideDict.__init__ (functions_of s name)))]>
                (<[fresh (dom (objects s.2))
                   := SymbolicFunctionGroup.mk name OverrideDict.__init__]> (objects s.2)))
             ∅ ws))
    ∧ (∀ a0, _registry s.1 !! name = Some a0 → a = a0)
    ∧ (_registry s.1 !! name = None → a = fresh (dom (objects s.2))).
Proof.
  intros [Hwf Hreg] Hname. rewrite register_valid by done. cbv zeta.
  pose proof (is_fresh (dom (objects s.2))) as Hfresh.
  unfold SymbolicFunctionGroup.__init__. simpl.
  set (fresh_a := fresh (dom (objects s.2))) in *.
  destruct (_registry s.1 !! name) as [a0|] eqn:Hlook; simpl.
  - destruct (Hreg _ _ Hlook) as [g Hg].
    assert (a0 ≠ fresh_a).
    { intros ->. apply Hfresh, elem_of_dom. by eexists. }
    rewrite (functions_of_Some s name a0 g Hlook Hg). simpl.
    assert (Hs1 : s.1 = SymbolicRegistry.mk (<[name := a0]> (_registry s.1))).
    { rewrite insert_id by done. by destruct s.1. }
    destruct custom.
    + erewrite add_custom_eq by (simpl; rewrite lookup_insert_ne; done).
      eexists a0, _, _. rewrite <- Hs1. split; [done|]. split; [by intros ? [= <-]|done].
    + erewrite add_eq by (simpl; rewrite lookup_insert_ne; done).
      eexists a0, _, _. rewrite <- Hs1. split; [done|]. split; [by intros ? [= <-]|done].
  - rewrite (functions_of_None s name Hlook). simpl.
    destruct custom.
    + erewrite add_custom_eq by (simpl; apply lookup_insert_eq).
      eexists fresh_a, _, _. split; [done|]. split; [done|done].
    + erewrite add_eq by (simpl; apply lookup_insert_eq).
      eexists fresh_a, _, _. split; [done|]. split; [done|done].
Qed.

(** *** Names and groups, one to one *)

Lemma registry_inj_init : registry_inj (init_state (Handler:=Handler)).
Proof. intros n1 n2 a. simpl. by rewrite lookup_empty. Qed.

Lemma registry_inj_register name opset func custom s :
  state_wf base s → registry_inj s →
  registry_inj (register name opset func custom s).2.
Proof.
  intros Hs Hinj. destruct (str_in "::" name) eqn:Hname.
  2:{ by rewrite register_invalid. }
  destruct (register_state name opset func custom s Hs Hname)
    as (a & nm & ws & -> & Hold & Hnew). simpl.
  destruct (_registry s.1 !! name) as [a0|] eqn:Hlook.
  - rewrite (Hold a0 eq_refl). intros n1 n2 a'. simpl. rewrite insert_id by done.
    apply Hinj.
  - rewrite (Hnew eq_refl). intros n1 n2 a'. simpl.
    assert (Hfresh : ∀ n, _registry s.1 !! n ≠ Some (fresh (dom (objects s.2)))).
    { intros n Hn. apply (is_fresh (dom (objects s.2))), elem_of_dom.
      by apply (proj2 Hs n). }
    rewrite !lookup_insert. repeat case_decide; subst; try done.
    + intros [= <-] Hn. by destruct (Hfresh n2).
    + intros Hn [= <-]. by destruct (Hfresh n1).
    + apply Hinj.
Qed.

Lemma step_registry s c :
  (∀ name opset func custom, c ≠ Register name opset func custom) →
  (SymbolicRegistry.step base s c).1 = s.1.
Proof.
  intros Hc. destruct c as [name opset func custom|name opset|name version|c];
    unfold SymbolicRegistry.step.
  - by destruct (Hc name opset func custom).
  - unfold unregister, gets, mbind, M_bind, bind, mret, M_ret, ret, on_heap.
    destruct (_registry s.1 !! name) as [group|]; [|done].
    by destruct (remove_custom group opset s.2).
  - unfold is_registered_op, get_function_group, gets, mbind, M_bind, bind, mret,
      M_ret, ret, on_heap.
    destruct (_registry s.1 !! name) as [group|]; [|done].
    by destruct (get base group version s.2) as [[r|e] σ'].
  - done.
Qed.

Lemma registry_inj_step s c :
  state_wf base s → registry_inj s → registry_inj (SymbolicRegistry.step base s c).
Proof.
  intros Hs Hinj. destruct c as [name opset func custom| | |];
    [by apply registry_inj_register|..];
    unfold registry_inj; by rewrite step_registry.
Qed.

(** The states that calls make. *)
Lemma reached (cs : list (SymbolicRegistry.call Handler)) :
  state_wf base (SymbolicRegistry.run base cs init_state)
  ∧ registry_inj (SymbolicRegistry.run base cs init_state).
Proof.
  assert (H : ∀ s, state_wf base s ∧ registry_inj s →
                   state_wf base (SymbolicRegistry.run base cs s)
                   ∧ registry_inj (SymbolicRegistry.run base cs s)).
  { induction cs as [|c cs IH]; intros s [Hs Hinj]; [done|].
    apply IH. split; [by apply state_wf_step|by apply registry_inj_step]. }
  apply H. split; [apply state_wf_init|apply registry_inj_init].
Qed.

(** *** The dictionary of a name decides the queries *)

Lemma get_wrapped_functions (g g' : SymbolicFunctionGroup.t Handler) version :
  _functions g = _functions g' →
  get__wrapped__ base g version = get__wrapped__ base g' version.
Proof. intros E. unfold get__wrapped__. by rewrite E. Qed.

Lemma functions_of_inv s name d :
  functions_of s name = Some d →
  ∃ a g, _registry s.1 !! name = Some a ∧ objects s.2 !! a = Some g ∧ _functions g = d.
Proof.
  unfold functions_of. destruct (_registry s.1 !! name) as [a|] eqn:Ha; [|done]. simpl.
  destruct (objects s.2 !! a) as [g|] eqn:Hg; [|done]. simpl. intros [= <-].
  by exists a, g.
Qed.

Lemma functions_of_None_inv s name :
  state_wf base s → functions_of s name = None → _registry s.1 !! name = None.
Proof.
  intros [_ Hreg]. unfold functions_of.
  destruct (_registry s.1 !! name) as [a|] eqn:Ha; [|done]. simpl.
  destruct (Hreg _ _ Ha) as [g ->]. done.
Qed.

Lemma functions_of_consistent s name d :
  state_wf base s → functions_of s name = Some d → OverrideDict.consistent d.
Proof.
  intros [[Hobj _] _] (a & g & _ & Hg & <-)%functions_of_inv. by apply (Hobj a).
Qed.

Lemma is_registered_op_result s name version :
  state_wf base s →
  (is_registered_op base name version s).1 =
    match functions_of s name with
    | None => Ok false
    | Some d =>
        match get__wrapped__ base (SymbolicFunctionGroup.mk name d) version with
        | Ok (Some _) => Ok true
        | Ok None => Ok false
        | Raise e => Raise e
        end
    end.
Proof.
  intros Hs. destruct (functions_of s name) as [d|] eqn:Hd.
  - destruct (functions_of_inv _ _ _ Hd) as (a & g & Ha & Hg & <-).
    pose proof (get_wf base a version s.2 g (proj1 Hs) Hg) as Hget.
    rewrite (get_wrapped_functions g (SymbolicFunctionGroup.mk name (_functions g))) in Hget
      by done.
    unfold is_registered_op, get_function_group, gets, mbind, M_bind, bind, mret,
      M_ret, ret, on_heap. simpl. rewrite Ha.
    destruct (get base a version s.2) as [r σ']. simpl in Hget. rewrite <- Hget.
    by destruct r as [[f|]|e].
  - apply (functions_of_None_inv _ _ Hs) in Hd.
    unfold is_registered_op, get_function_group, gets, mbind, M_bind, bind, mret,
      M_ret, ret. simpl. by rewrite Hd.
Qed.

(** *** What [register] and [unregister] do to the dictionaries *)

Lemma functions_of_register name opset func custom s :
  state_wf base s → registry_inj s → str_in "::" name = true →
  functions_of (register name opset func custom s).2 name
  = Some (registered custom opset func
            (default OverrideDict.__init__ (functions_of s name)))
  ∧ ∀ name', name' ≠ name →
      _registry (register name opset func custom s).2.1 !! name' = _registry s.1 !! name'
      ∧ functions_of (register name opset func custom s).2 name' = functions_of s name'.
Proof.
  intros Hs Hinj Hname.
  destruct (register_state name opset func custom s Hs Hname)
    as (a & nm & ws & -> & Hold & Hnew). simpl. split.
  - unfold functions_of. simpl. rewrite lookup_insert_eq. simpl.
    by rewrite lookup_insert_eq.
  - intros name' Hne. split; [simpl; by rewrite lookup_insert_ne|].
    unfold functions_of. simpl. rewrite lookup_insert_ne by done.
    destruct (_registry s.1 !! name') as [a'|] eqn:Ha'; [|done]. simpl.
    destruct (proj2 Hs _ _ Ha') as [g' Hg'].
    assert (a' ≠ fresh (dom (objects s.2))).
    { intros ->. apply (is_fresh (dom (objects s.2))), elem_of_dom. by eexists. }
    assert (a' ≠ a).
    { intros ->. destruct (_registry s.1 !! name) as [a0|] eqn:Hlook.
      - rewrite (Hold a0 eq_refl) in Ha'. by destruct (Hne (Hinj _ _ _ Ha' Hlook)).
      - by rewrite (Hnew eq_refl) in *. }
    by rewrite !lookup_insert_ne.
Qed.

Lemma remove_override_absent (d : OverrideDict.t Handler) key :
  OverrideDict.consistent d → OverrideDict._overrides d !! key = None →
  OverrideDict.remove_override d key = d.
Proof.
  destruct d as [b o m]. unfold OverrideDict.consistent, OverrideDict.remove_override. simpl.
  intros -> Ho. by rewrite delete_id.
Qed.

(** The state that [unregister] leaves, for a name that has a group. *)
Lemma unregister_state name opset s a g :
  state_wf base s →
  _registry s.1 !! name = Some a → objects s.2 !! a = Some g →
  ∃ cache ws,
    unregister name opset s =
      (Ok tt,
       (s.1,
        Heap (<[a := SymbolicFunctionGroup.mk (_name g)
                        (OverrideDict.remove_override (_functions g) opset)]>
                (objects s.2))
             cache ws)).
Proof.
  intros Hs Ha Hg.
  unfold unregister, gets, mbind, M_bind, bind, mret, M_ret, ret, on_heap.
  simpl. rewrite Ha.
  destruct (OverrideDict._overrides (_functions g) !! opset) as [c|] eqn:Ho.
  - rewrite (remove_custom_present _ _ _ _ _ Hg Ho). by eexists _, _.
  - rewrite (remove_custom_absent _ _ _ _ Hg Ho).
    rewrite remove_override_absent; [|by apply (proj1 (proj1 Hs) a)|done].
    eexists _, _. do 3 f_equal. rewrite insert_id; [done|]. rewrite Hg. by destruct g.
Qed.

Lemma unregister_unknown name opset s :
  _registry s.1 !! name = None → unregister name opset s = (Ok tt, s).
Proof.
  intros Ha. unfold unregister, gets, mbind, M_bind, bind, mret, M_ret, ret.
  simpl. by rewrite Ha.
Qed.

Lemma functions_of_unregister name opset s :
  state_wf base s → registry_inj s →
  (unregister name opset s).1 = Ok tt
  ∧ (unregister name opset s).2.1 = s.1
  ∧ functions_of (unregister name opset s).2 name
    = (λ d, OverrideDict.remove_override d opset) <$> functions_of s name
  ∧ ∀ name', name' ≠ name →
      functions_of (unregister name opset s).2 name' = functions_of s name'.
Proof.
  intros Hs Hinj. destruct (_registry s.1 !! name) as [a|] eqn:Ha.
  - destruct (proj2 Hs _ _ Ha) as [g Hg].
    destruct (unregister_state name opset s a g Hs Ha Hg) as (cache & ws & ->).
    simpl. split_and!; [done|done|..].
    + rewrite (functions_of_Some s name a g Ha Hg). unfold functions_of. simpl.
      rewrite Ha. simpl. by rewrite lookup_insert_eq.
    + intros name' Hne. unfold functions_of. simpl.
      destruct (_registry s.1 !! name') as [a'|] eqn:Ha'; [|done]. simpl.
      rewrite lookup_insert_ne; [done|]. intros ->. by destruct (Hne (Hinj _ _ _ Ha' Ha)).
  - rewrite (unregister_unknown _ _ _ Ha). simpl. split_and!; [done|done| |done].
    by rewrite (functions_of_None s name Ha).
Qed.

(** What the queries answer on a name whose dictionary has [func] at
    [version]. *)
Lemma lookup_of_functions s name version d func :
  state_wf base s →
  functions_of s name = Some d →
  OverrideDict._merged d !! version = Some func →
  (is_registered_op base name version s).1 = Ok true
  ∧ ∃ group, (get_function_group name s).1 = Ok (Some group)
             ∧ (get base group version s.2).1 = Ok (Some func).
Proof.
  intros Hs Hd Hm. destruct (functions_of_inv _ _ _ Hd) as (a & g & Ha & Hg & <-).
  destruct (query_registered base s name version a g func Hs Ha Hg Hm) as (? & ? & ? & _).
  split; [done|]. by exists a.
Qed.

(** X15. On a registry that any sequence of calls has made, [register]
    returns for every name that has [::] inside, and for every other name
    it raises [ValueError] and leaves the state as it is. *)
Theorem register_accepts_iff_separator
    (cs : list (SymbolicRegistry.call Handler)) (name : string) (opset : Z)
    (func : Handler) (custom : bool) :
  let s := SymbolicRegistry.run base cs init_state in
  ((∃ domain op, name = domain +:+ "::" +:+ op) →
   (register name opset func custom s).1 = Ok tt)
  ∧ (¬ (∃ domain op, name = domain +:+ "::" +:+ op) →
     ∃ msg, register name opset func custom s = (Raise (ValueError msg), s)).
Proof.
  intros s. destruct (reached cs) as [Hs _]. fold s in Hs. split.
  - intros Hname%str_in_spec.
    by destruct (register_state name opset func custom s Hs Hname)
      as (a & nm & ws & -> & _).
  - intros Hname. rewrite register_invalid; [by eexists|].
    destruct (str_in "::" name) eqn:E; [|done]. by apply str_in_spec in E.
Qed.

(** X16. Names do not interfere: on a registry that any sequence of calls
    has made, [register] under one name leaves the group of every other
    name, and what [is_registered_op] answers for it, as they were. *)
Theorem register_leaves_other_names
    (cs : list (SymbolicRegistry.call Handler)) (name name' : string)
    (opset version : Z) (func : Handler) (custom : bool) :
  name' ≠ name →
  let s := SymbolicRegistry.run base cs init_state in
  let s' := (register name opset func custom s).2 in
  (get_function_group name' s').1 = (get_function_group name' s).1
  ∧ (is_registered_op base name' version s').1 = (is_registered_op base name' version s).1.
Proof.
  intros Hne s s'. destruct (reached cs) as [Hs Hinj]. fold s in Hs, Hinj.
  destruct (str_in "::" name) eqn:Hname.
  2:{ subst s'. by rewrite register_invalid. }
  assert (Hs' : state_wf base s') by by apply state_wf_register.
  destruct (functions_of_register name opset func custom s Hs Hinj Hname) as [_ Hother].
  destruct (Hother name' Hne) as [Hreg Hfun]. fold s' in Hreg, Hfun. split.
  - unfold get_function_group, gets. simpl. by rewrite Hreg.
  - rewrite !is_registered_op_result by done. by rewrite Hfun.
Qed.

(** X17. [register] never replaces a group: on a registry that any
    sequence of calls has made, after [register] with a name of the form
    [domain::op] the names are the earlier ones and this one, and a name
    that had a group has the same group. *)
Theorem register_keeps_groups
    (cs : list (SymbolicRegistry.call Handler)) (name : string) (opset : Z)
    (func : Handler) (custom : bool) :
  str_in "::" name = true →
  let s := SymbolicRegistry.run base cs init_state in
  let s' := (register name opset func custom s).2 in
  (all_functions s').1 = Ok ({[name]} ∪ dom (_registry s.1))
  ∧ (∃ group, (get_function_group name s').1 = Ok (Some group))
  ∧ ∀ group, (get_function_group name s).1 = Ok (Some group) →
             (get_function_group name s').1 = Ok (Some group).
Proof.
  intros Hname s s'. destruct (reached cs) as [Hs _]. fold s in Hs.
  destruct (register_state name opset func custom s Hs Hname)
    as (a & nm & ws & E & Hold & _).
  subst s'. rewrite E. unfold all_functions, get_function_group, gets. simpl.
  split_and!.
  - by rewrite dom_insert_L.
  - exists a. by rewrite lookup_insert_eq.
  - intros group [= Hg]. rewrite (Hold group Hg). by rewrite lookup_insert_eq.
Qed.

(** X18. A custom function is found whatever was registered before: on a
    registry that any sequence of calls has made, after
    [register(name, version, func, custom=True)] with a name of the form
    [domain::op], [is_registered_op(name, version)] is [True] and
    [get_function_group(name).get(version)] is [func]. *)
Theorem register_custom_then_lookup
    (cs : list (SymbolicRegistry.call Handler)) (name : string) (version : Z)
    (func : Handler) :
  str_in "::" name = true →
  let s := SymbolicRegistry.run base cs init_state in
  let s' := (register name version func true s).2 in
  (is_registered_op base name version s').1 = Ok true
  ∧ ∃ group, (get_function_group name s').1 = Ok (Some group)
             ∧ (get base group version s'.2).1 = Ok (Some func).
Proof.
  intros Hname s s'. destruct (reached cs) as [Hs Hinj]. fold s in Hs, Hinj.
  assert (Hs' : state_wf base s') by by apply state_wf_register.
  destruct (functions_of_register name version func true s Hs Hinj Hname) as [Hfun _].
  apply (lookup_of_functions s' name version _ func Hs' Hfun).
  simpl. apply lookup_insert_eq.
Qed.

(** X19. [unregister] takes nothing but overrides away. On a registry that
    any sequence of calls has made: for a name without a group it returns
    and leaves the state as it is; it always returns and leaves the names as
    they are; and where the group of the name has a base function at
    [opset], after [unregister(name, opset)] the name is still registered
    at [opset] and [get(opset)] is that base function. *)
Theorem unregister_keeps_base
    (cs : list (SymbolicRegistry.call Handler)) (name : string) (opset : Z) :
  let s := SymbolicRegistry.run base cs init_state in
  let s' := (unregister name opset s).2 in
  (unregister name opset s).1 = Ok tt
  ∧ (all_functions s').1 = (all_functions s).1
  ∧ ((get_function_group name s).1 = Ok None → s' = s)
  ∧ ∀ d func,
      functions_of s name = Some d →
      OverrideDict._base d !! opset = Some func →
      (is_registered_op base name opset s').1 = Ok true
      ∧ ∃ group, (get_function_group name s').1 = Ok (Some group)
                 ∧ (get base group opset s'.2).1 = Ok (Some func).
Proof.
  intros s s'. destruct (reached cs) as [Hs Hinj]. fold s in Hs, Hinj.
  assert (Hs' : state_wf base s')
    by apply (state_wf_step base s (Unregister name opset) Hs).
  destruct (functions_of_unregister name opset s Hs Hinj) as (Hok & Hreg & Hfun & _).
  fold s' in Hreg, Hfun. split_and!.
  - done.
  - unfold all_functions, gets. simpl. by rewrite Hreg.
  - unfold get_function_group, gets. simpl. intros [= Ha]. subst s'.
    by rewrite unregister_unknown.
  - intros d func Hd Hb. rewrite Hd in Hfun. simpl in Hfun.
    apply (lookup_of_functions s' name opset _ func Hs' Hfun).
    simpl. unfold OverrideDict.merge. by rewrite lookup_union_r by apply lookup_delete_eq.
Qed.

(** X20. A custom function registered and unregistered leaves no trace in
    the queries: on a registry that any sequence of calls has made, where
    the group of [name], if there is one, has no override at [opset], after
    [register(name, opset, func, custom=True)] and [unregister(name, opset)]
    [is_registered_op] answers for every name and version what it answered
    before. *)
Theorem register_custom_unregister_roundtrip
    (cs : list (SymbolicRegistry.call Handler)) (name : string) (opset : Z)
    (func : Handler) (name' : string) (version' : Z) :
  str_in "::" name = true →
  let s := SymbolicRegistry.run base cs init_state in
  (∀ d, functions_of s name = Some d → OverrideDict._overrides d !! opset = None) →
  let s2 := (unregister name opset (register name opset func true s).2).2 in
  (is_registered_op base name' version' s2).1 = (is_registered_op base name' version' s).1.
Proof.
  intros Hname s Hno s2. destruct (reached cs) as [Hs Hinj]. fold s in Hs, Hinj.
  set (s1 := (register name opset func true s).2) in *.
  assert (Hs1 : state_wf base s1) by by apply state_wf_register.
  assert (Hinj1 : registry_inj s1) by by apply registry_inj_register.
  assert (Hs2 : state_wf base s2)
    by apply (state_wf_step base s1 (Unregister name opset) Hs1).
  destruct (functions_of_register name opset func true s Hs Hinj Hname) as [Hfun1 Hother1].
  destruct (functions_of_unregister name opset s1 Hs1 Hinj1) as (_ & _ & Hfun2 & Hother2).
  fold s1 in Hfun1, Hother1. fold s2 in Hfun2, Hother2.
  rewrite !is_registered_op_result by done.
  destruct (decide (name' = name)) as [->|Hne].
  2:{ rewrite (Hother2 name' Hne). by rewrite (proj2 (Hother1 name' Hne)). }
  rewrite Hfun2, Hfun1. simpl.
  destruct (functions_of s name) as [d|] eqn:Hd; simpl.
  - rewrite remove_override_fresh; [done| |by apply Hno].
    by apply (functions_of_consistent s name).
  - rewrite remove_override_fresh; [|apply consistent_init|apply lookup_empty].
    by rewrite get_wrapped_empty.
Qed.
End registry_more.

(** ** The registration decorators *)

Section entry_more.
Import SymbolicFunctionGroup SymbolicRegistry Views EntryPoints.
Context {Handler : Type}.
Variable base : Z.
Implicit Types (s : state (Handler:=Handler)) (d : OverrideDict.t Handler)
  (name : string) (func : Handler).

(** The dictionary after [register] for each version of a list. *)
Lemma registered_foldl_keeps custom func (vs : list Z) d version :
  OverrideDict._merged d !! version = Some func →
  (custom = false →
   OverrideDict.consistent d ∧ OverrideDict._overrides d !! version = None) →
  OverrideDict._merged (foldl (λ d v, registered custom v func d) d vs) !! version
  = Some func.
Proof.
  revert d. induction vs as [|x vs IH]; intros d Hm Hbase; [done|].
  simpl. apply IH.
  - destruct custom; simpl.
    + rewrite lookup_insert. by case_decide.
    + destruct (Hbase eq_refl) as [Hd Ho]. unfold OverrideDict.merge.
      rewrite lookup_union_r by done.
      rewrite lookup_insert. case_decide; [done|].
      rewrite (merged_lookup d version Hd), Ho in Hm. done.
  - intros ->. split; [apply consistent_setitem|]. by apply Hbase.
Qed.

Lemma registered_foldl_lookup custom func (vs : list Z) d version :
  version ∈ vs →
  (custom = false → OverrideDict._overrides d !! version = None) →
  OverrideDict._merged (foldl (λ d v, registered custom v func d) d vs) !! version
  = Some func.
Proof.
  revert d. induction vs as [|x vs IH]; intros d Hin Hbase.
  { by apply elem_of_nil in Hin. }
  simpl. destruct (decide (version = x)) as [->|Hne].
  - apply registered_foldl_keeps.
    + destruct custom; simpl; [apply lookup_insert_eq|].
      unfold OverrideDict.merge. rewrite lookup_union_r by auto. apply lookup_insert_eq.
    + intros ->. split; [apply consistent_setitem|]. by apply Hbase.
  - apply IH.
    + apply elem_of_cons in Hin as [?|?]; done.
    + intros ->. by apply Hbase.
Qed.

(** The loop of [wrapper]. *)
Lemma for_each_register name func custom (vs : list Z) s :
  str_in "::" name = true →
  state_wf base s → registry_inj s →
  let r := for_each (λ v, register name v func custom) vs s in
  r.1 = Ok tt
  ∧ state_wf base r.2 ∧ registry_inj r.2
  ∧ (vs ≠ [] →
     functions_of r.2 name
     = Some (foldl (λ d v, registered custom v func d)
               (default OverrideDict.__init__ (functions_of s name)) vs)).
Proof.
  intros Hname. revert s. induction vs as [|v vs IH]; intros s Hs Hinj; [done|].
  cbv zeta. simpl. unfold mbind, M_bind, bind.
  pose proof (state_wf_register base name v func custom s Hs) as Hs1.
  pose proof (registry_inj_register base name v func custom s Hs Hinj) as Hinj1.
  destruct (functions_of_register base name v func custom s Hs Hinj Hname) as [Hfun _].
  destruct (register_state base name v func custom s Hs Hname) as (a & nm & ws & E & _).
  destruct (register name v func custom s) as [r1 s1]. simpl in Hs1, Hinj1, Hfun.
  injection E as -> _.
  destruct (IH s1 Hs1 Hinj1) as (Hok & Hs' & Hinj' & Hfun').
  split_and!; [done|done|done|]. intros _.
  destruct vs as [|v' vs'].
  - simpl. done.
  - rewrite Hfun' by done. by rewrite Hfun.
Qed.

Lemma onnx_symbolic_lookup name versions func custom s version :
  str_in "::" name = true →
  state_wf base s → registry_inj s →
  version ∈ versions →
  (custom = false →
   ∀ d, functions_of s name = Some d → OverrideDict._overrides d !! version = None) →
  let r := for_each (λ v, register name v func custom) versions s in
  r.1 = Ok tt
  ∧ (is_registered_op base name version r.2).1 = Ok true
  ∧ ∃ group, (get_function_group name r.2).1 = Ok (Some group)
             ∧ (get base group version r.2.2).1 = Ok (Some func).
Proof.
  intros Hname Hs Hinj Hin Hno.
  destruct (for_each_register name func custom versions s Hname Hs Hinj)
    as (Hok & Hs' & _ & Hfun).
  cbv zeta. split; [done|].
  assert (Hne : versions ≠ []) by (intros ->; by apply elem_of_nil in Hin).
  apply (lookup_of_functions base _ name version _ func Hs' (Hfun Hne)).
  apply registered_foldl_lookup; [done|].
  intros Hc. destruct (functions_of s name) as [d|] eqn:Hd; simpl; [by apply Hno|done].
Qed.

(** [wrapper] on a state that keeps the invariants. *)
Lemma onnx_symbolic_found
    name (opset : opset_arg) (decorate : option (list (Handler → Handler)))
    custom func s version :
  str_in "::" name = true →
  state_wf base s → registry_inj s →
  version ∈ match opset with One v => [v] | Many vs => vs end →
  (custom = false →
   ∀ d, functions_of s name = Some d → OverrideDict._overrides d !! version = None) →
  let r := onnx_symbolic name opset decorate custom func s in
  r.1 = Ok func
  ∧ (is_registered_op base name version r.2).1 = Ok true
  ∧ ∃ group,
      (get_function_group name r.2).1 = Ok (Some group)
      ∧ (get base group version r.2.2).1 = Ok (Some (apply_decorators decorate func)).
Proof.
  intros Hname Hs Hinj Hin Hno.
  destruct (onnx_symbolic_lookup name _ (apply_decorators decorate func) custom s version
              Hname Hs Hinj Hin Hno) as (Hok & Hreg & Hget).
  cbv zeta. unfold onnx_symbolic, mbind, M_bind, bind.
  destruct (for_each _ _ s) as [r1 s1]. simpl in Hok. subst r1. done.
Qed.

(** X21. [onnx_symbolic] registers the decorated function at every opset
    it is given and hands the function back undecorated. On a registry that
    any sequence of calls has made, for a name of the form [domain::op]:
    the call returns [func], and at each [version] of [opset] at which the
    group of the name had no override or [custom] is set,
    [is_registered_op(name, version)] is [True] and [get(version)] on the
    group is [func] with the functions of [decorate] applied in their
    order. *)
Theorem onnx_symbolic_registers
    (cs : list (SymbolicRegistry.call Handler)) (name : string) (opset : opset_arg)
    (decorate : option (list (Handler → Handler))) (custom : bool) (func : Handler)
    (version : Z) :
  str_in "::" name = true →
  let s := SymbolicRegistry.run base cs init_state in
  version ∈ match opset with One v => [v] | Many vs => vs end →
  (custom = true
   ∨ ∀ d, functions_of s name = Some d → OverrideDict._overrides d !! version = None) →
  let r := onnx_symbolic name opset decorate custom func s in
  r.1 = Ok func
  ∧ (is_registered_op base name version r.2).1 = Ok true
  ∧ ∃ group,
      (get_function_group name r.2).1 = Ok (Some group)
      ∧ (get base group version r.2.2).1 = Ok (Some (apply_decorators decorate func)).
Proof.
  intros Hname s Hin Hcase. destruct (reached base cs) as [Hs Hinj]. fold s in Hs, Hinj.
  apply onnx_symbolic_found; [done..|]. intros ->. by destruct Hcase.
Qed.

(** X22. [custom_onnx_symbolic] needs nothing of the registry: on a
    registry that any sequence of calls has made, for a name of the form
    [domain::op], the call returns [func], and at each [version] of [opset]
    the name is registered and [get(version)] on its group is the decorated
    function, whatever base or custom function was there. *)
Theorem custom_onnx_symbolic_overrides
    (cs : list (SymbolicRegistry.call Handler)) (name : string) (opset : opset_arg)
    (decorate : option (list (Handler → Handler))) (func : Handler) (version : Z) :
  str_in "::" name = true →
  version ∈ match opset with One v => [v] | Many vs => vs end →
  let s := SymbolicRegistry.run base cs init_state in
  let r := custom_onnx_symbolic name opset decorate func s in
  r.1 = Ok func
  ∧ (is_registered_op base name version r.2).1 = Ok true
  ∧ ∃ group,
      (get_function_group name r.2).1 = Ok (Some group)
      ∧ (get base group version r.2.2).1 = Ok (Some (apply_decorators decorate func)).
Proof.
  intros Hname Hin s. destruct (reached base cs) as [Hs Hinj]. fold s in Hs, Hinj.
  unfold custom_onnx_symbolic. by apply onnx_symbolic_found.
Qed.

(** X23. The name is checked by [register] only, so only when there is an
    opset: for a name without [::], [onnx_symbolic] with an empty sequence
    of opsets returns [func] and with any other [opset] raises [ValueError];
    in both cases the state is left as it is. *)
Theorem onnx_symbolic_invalid_name
    (s : state (Handler:=Handler)) (name : string) (opset : opset_arg)
    (decorate : option (list (Handler → Handler))) (custom : bool) (func : Handler) :
  str_in "::" name = false →
  match opset with
  | Many [] => onnx_symbolic name opset decorate custom func s = (Ok func, s)
  | _ => ∃ msg, onnx_symbolic name opset decorate custom func s
                = (Raise (ValueError msg), s)
  end.
Proof.
  intros Hname. unfold onnx_symbolic, mbind, M_bind, bind.
  destruct opset as [v|[|v vs]]; simpl; [|done|];
    unfold mbind, M_bind, bind; rewrite register_invalid by done; by eexists.
Qed.
End entry_more.

(** ** More concrete runs *)

Section more_concrete_runs.
Import SymbolicFunctionGroup Samples MoreSamples.

Lemma dispatch_permutation_witness :
  Dispatch._dispatch_opset_version 9 12 [13; 9; 11]
  = Dispatch._dispatch_opset_version 9 12 [9; 11; 13].
Proof.
  apply (dispatch_permutation 9 12 [13; 9; 11] [9; 11; 13]).
  exact (Permutation_cons_append [9; 11] 13).
Defined.

Lemma dispatch_idempotent_witness :
  Dispatch._dispatch_opset_version 9 11 [9; 11; 13] = Ok (Some 11).
Proof.
  apply (dispatch_idempotent 9 12 11 [9; 11; 13]). vm_compute. reflexivity.
Defined.

Lemma dispatch_monotone_witness : 9 ≤ 11.
Proof.
  apply (dispatch_monotone 9 8 12 9 11 [9; 11; 13]).
  - lia.
  - vm_compute. reflexivity.
  - vm_compute. reflexivity.
Defined.

Lemma dispatch_None_asserted_witness :
  Dispatch._dispatch_opset_version 9 10 [13; 11] = Ok None
  ∧ Dispatch._dispatch_opset_version 9 10 [7; 8] = Ok None.
Proof.
  split.
  - apply (dispatch_None_asserted 9 10 [13; 11]). left. split; [lia|].
    intros v Hv. set_unfold in Hv. lia.
  - apply (dispatch_None_asserted 9 10 [7; 8]). right. split; [lia|].
    intros v Hv. set_unfold in Hv. lia.
Defined.

Lemma setitem_under_override_witness :
  let d := foldl OverrideDict.apply OverrideDict.__init__ overridden_ops in
  OverrideDict._merged (OverrideDict.__setitem__ d 9 "new9"%string) = OverrideDict._merged d
  ∧ OverrideDict.get (OverrideDict.__setitem__ d 9 "new9"%string) 9 None
    = Some "custom9"%string
  ∧ OverrideDict._base (OverrideDict.__setitem__ d 9 "new9"%string) !! 9
    = Some "new9"%string
  ∧ OverrideDict.get
      (OverrideDict.remove_override (OverrideDict.__setitem__ d 9 "new9"%string) 9) 9 None
    = Some "new9"%string.
Proof.
  apply (setitem_under_override overridden_ops 9 "custom9"%string "new9"%string).
  vm_compute. reflexivity.
Defined.

Lemma mutation_leaves_other_groups_witness :
  let σ := run 9 two_groups empty_heap in
  (get 9 2 9 (add 1 "foo9"%string 9 σ).2).1 = (get 9 2 9 σ).1
  ∧ (get 9 2 9 (add_custom 1 "foo9"%string 9 σ).2).1 = (get 9 2 9 σ).1
  ∧ (get 9 2 9 (remove_custom 1 9 σ).2).1 = (get 9 2 9 σ).1.
Proof.
  apply (mutation_leaves_other_groups 9 two_groups 1 2 "foo9"%string 9 9). discriminate.
Defined.

Lemma one_group_reached : objects (run 9 one_group empty_heap) !! 1%positive = Some new_group.
Proof. vm_compute. reflexivity. Defined.

Lemma add_twice_replaces_and_warns_witness :
  let σ := run 9 one_group empty_heap in
  let σ1 := (add 1 "first"%string 9 σ).2 in
  let σ2 := (add 1 "second"%string 9 σ1).2 in
  (add 1 "first"%string 9 σ).1 = Ok tt
  ∧ (add 1 "second"%string 9 σ1).1 = Ok tt
  ∧ warnings σ2 = AlreadyRegistered "aten::foo" 9 :: warnings σ1
  ∧ (get 9 1 9 σ2).1 = Ok (Some "second"%string).
Proof.
  apply (add_twice_replaces_and_warns 9 one_group 1 9 new_group "first"%string
           "second"%string one_group_reached).
  vm_compute. reflexivity.
Defined.

Lemma both_group_reached :
  objects (run 9 both_calls empty_heap) !! 1%positive = Some both_group.
Proof. vm_compute. reflexivity. Defined.

Lemma add_under_custom_witness :
  ((add 1 "new9"%string 9;;
    before ← get 9 1 9;
    remove_custom 1 9;;
    after ← get 9 1 9;
    mret (before, after)) (run 9 both_calls empty_heap)).1
  = Ok (Some "custom9"%string, Some "new9"%string).
Proof.
  apply (add_under_custom 9 both_calls 1 9 both_group "custom9"%string "new9"%string
           both_group_reached).
  vm_compute. reflexivity.
Defined.

Lemma add_custom_then_remove_custom_witness :
  (add_custom 1 "custom9"%string 9;; remove_custom 1 9) (run 9 foo_calls empty_heap)
  = (Ok tt, Heap (objects (run 9 foo_calls empty_heap)) ∅
              (warnings (run 9 foo_calls empty_heap))).
Proof.
  apply (add_custom_then_remove_custom 9 foo_calls 1 9 foo_group "custom9"%string
           foo_group_reached).
  vm_compute. reflexivity.
Defined.

Lemma register_leaves_other_names_witness :
  let s := SymbolicRegistry.run 9 foo_registered SymbolicRegistry.init_state in
  let s' := (SymbolicRegistry.register "aten::bar" 9 "bar9"%string false s).2 in
  (SymbolicRegistry.get_function_group "aten::foo" s').1
  = (SymbolicRegistry.get_function_group "aten::foo" s).1
  ∧ (SymbolicRegistry.is_registered_op 9 "aten::foo" 10 s').1
    = (SymbolicRegistry.is_registered_op 9 "aten::foo" 10 s).1.
Proof.
  apply (register_leaves_other_names 9 foo_registered "aten::bar" "aten::foo" 9 10
           "bar9"%string false).
  discriminate.
Defined.

Lemma register_keeps_groups_witness :
  let s := SymbolicRegistry.run 9 foo_registered SymbolicRegistry.init_state in
  let s' := (SymbolicRegistry.register "aten::foo" 13 "func13"%string false s).2 in
  (SymbolicRegistry.all_functions s').1
  = Ok ({["aten::foo"]} ∪ dom (SymbolicRegistry._registry s.1))
  ∧ (∃ group, (SymbolicRegistry.get_function_group "aten::foo" s').1 = Ok (Some group))
  ∧ ∀ group, (SymbolicRegistry.get_function_group "aten::foo" s).1 = Ok (Some group) →
             (SymbolicRegistry.get_function_group "aten::foo" s').1 = Ok (Some group).
Proof.
  apply (register_keeps_groups 9 foo_registered "aten::foo" 13 "func13"%string false).
  reflexivity.
Defined.

Lemma register_custom_then_lookup_witness :
  let s := SymbolicRegistry.run 9 foo_registered SymbolicRegistry.init_state in
  let s' := (SymbolicRegistry.register "aten::foo" 9 "custom9"%string true s).2 in
  (SymbolicRegistry.is_registered_op 9 "aten::foo" 9 s').1 = Ok true
  ∧ ∃ group, (SymbolicRegistry.get_function_group "aten::foo" s').1 = Ok (Some group)
             ∧ (get 9 group 9 s'.2).1 = Ok (Some "custom9"%string).
Proof.
  apply (register_custom_then_lookup 9 foo_registered "aten::foo" 9 "custom9"%string).
  reflexivity.
Defined.

Lemma register_custom_unregister_roundtrip_witness :
  let s := SymbolicRegistry.run 9 foo_registered SymbolicRegistry.init_state in
  let s2 := (SymbolicRegistry.unregister "aten::foo" 9
               (SymbolicRegistry.register "aten::foo" 9 "custom9"%string true s).2).2 in
  (SymbolicRegistry.is_registered_op 9 "aten::foo" 10 s2).1
  = (SymbolicRegistry.is_registered_op 9 "aten::foo" 10 s).1.
Proof.
  apply (register_custom_unregister_roundtrip 9 foo_registered "aten::foo" 9
           "custom9"%string "aten::foo" 10).
  - reflexivity.
  - intros d Hd. vm_compute in Hd. injection Hd as <-. reflexivity.
Defined.

Lemma onnx_symbolic_registers_witness :
  let s := SymbolicRegistry.run 9 foo_registered SymbolicRegistry.init_state in
  let r := EntryPoints.onnx_symbolic "aten::foo" (EntryPoints.Many [9; 12])
             (Some [quantized]) false "func"%string s in
  r.1 = Ok "func"%string
  ∧ (SymbolicRegistry.is_registered_op 9 "aten::foo" 12 r.2).1 = Ok true
  ∧ ∃ group,
      (SymbolicRegistry.get_function_group "aten::foo" r.2).1 = Ok (Some group)
      ∧ (get 9 group 12 r.2.2).1
        = Ok (Some (EntryPoints.apply_decorators (Some [quantized]) "func"%string)).
Proof.
  apply (onnx_symbolic_registers 9 foo_registered "aten::foo" (EntryPoints.Many [9; 12])
           (Some [quantized]) false "func"%string 12).
  - reflexivity.
  - set_solver.
  - right. intros d Hd. vm_compute in Hd. injection Hd as <-. reflexivity.
Defined.

Lemma custom_onnx_symbolic_overrides_witness :
  let s := SymbolicRegistry.run 9 foo_registered SymbolicRegistry.init_state in
  let r := EntryPoints.custom_onnx_symbolic "aten::foo" (EntryPoints.One 11) None
             "mine"%string s in
  r.1 = Ok "mine"%string
  ∧ (SymbolicRegistry.is_registered_op 9 "aten::foo" 11 r.2).1 = Ok true
  ∧ ∃ group,
      (SymbolicRegistry.get_function_group "aten::foo" r.2).1 = Ok (Some group)
      ∧ (get 9 group 11 r.2.2).1
        = Ok (Some (EntryPoints.apply_decorators None "mine"%string)).
Proof.
  apply (custom_onnx_symbolic_overrides 9 foo_registered "aten::foo" (EntryPoints.One 11)
           None "mine"%string 11).
  - reflexivity.
  - set_solver.
Defined.

Lemma onnx_symbolic_invalid_name_witness :
  EntryPoints.onnx_symbolic "badname" (EntryPoints.Many []) None false "func"%string no_names
  = (Ok "func"%string, no_names)
  ∧ ∃ msg, EntryPoints.onnx_symbolic "badname" (EntryPoints.One 9) None false
             "func"%string no_names
           = (Raise (ValueError msg), no_names).
Proof.
  split.
  - apply (onnx_symbolic_invalid_name no_names "badname" (EntryPoints.Many []) None false
             "func"%string).
    reflexivity.
  - apply (onnx_symbolic_invalid_name no_names "badname" (EntryPoints.One 9) None false
             "func"%string).
    reflexivity.
Defined.

Lemma override_then_remove_witness :
  let d := foldl OverrideDict.apply OverrideDict.__init__ overridden_ops in
  OverrideDict.remove_override (OverrideDict.override d 11 "custom11"%string) 11 = d.
Proof.
  apply (proj2 (override_then_remove overridden_ops 11 "custom11"%string)).
  vm_compute. reflexivity.
Defined.

Lemma register_accepts_iff_separator_witness :
  (SymbolicRegistry.register "aten::bar" 9 "bar9"%string false
     (SymbolicRegistry.run 9 foo_registered SymbolicRegistry.init_state)).1 = Ok tt
  ∧ ∃ msg, SymbolicRegistry.register "aten:bar" 9 "bar9"%string false
             (SymbolicRegistry.run 9 foo_registered SymbolicRegistry.init_state)
           = (Raise (ValueError msg),
              SymbolicRegistry.run 9 foo_registered SymbolicRegistry.init_state).
Proof.
  split.
  - apply (proj1 (register_accepts_iff_separator 9 foo_registered "aten::bar" 9
                    "bar9"%string false)).
    by exists "aten"%string, "bar"%string.
  - apply (proj2 (register_accepts_iff_separator 9 foo_registered "aten:bar" 9
                    "bar9"%string false)).
    intros Hin%str_in_spec. vm_compute in Hin. discriminate Hin.
Defined.

Lemma unregister_keeps_base_witness :
  let s := SymbolicRegistry.run 9
             (foo_registered ++ [SymbolicRegistry.Register "aten::foo" 9 "custom9"%string true])
             SymbolicRegistry.init_state in
  let s' := (SymbolicRegistry.unregister "aten::foo" 9 s).2 in
  (SymbolicRegistry.is_registered_op 9 "aten::foo" 9 s').1 = Ok true
  ∧ ∃ group, (SymbolicRegistry.get_function_group "aten::foo" s').1 = Ok (Some group)
             ∧ (get 9 group 9 s'.2).1 = Ok (Some "func9"%string).
Proof.
  eapply (proj2 (proj2 (proj2 (unregister_keeps_base 9
            (foo_registered ++ [SymbolicRegistry.Register "aten::foo" 9 "custom9"%string true])
            "aten::foo" 9)))).
  - vm_compute. reflexivity.
  - vm_compute. reflexivity.
Defined.

(** C10. On the group whose one function is at opset 13, with base version
    9 and key 8, [get(8)] does not return [None] and [group[8]] neither
    raises [KeyError] nor returns a function: the [assert] of the dispatch
    fails in [get], and [group[8]] raises the same [AssertionError]. *)
Theorem getitem_failed_assert :
  (get 9 1 8 (run 9 only_13 empty_heap)).1 = Raise AssertionError
  ∧ (__getitem__ 9 1 8 (run 9 only_13 empty_heap)).1 = Raise AssertionError
  ∧ (get 9 1 8 (run 9 only_13 empty_heap)).1 ≠ Ok None
  ∧ (∀ key, (__getitem__ 9 1 8 (run 9 only_13 empty_heap)).1 ≠ Raise (KeyError key))
  ∧ (∀ func : string, (__getitem__ 9 1 8 (run 9 only_13 empty_heap)).1 ≠ Ok func).
Proof.
  assert (Hget : (get 9 1 8 (run 9 only_13 empty_heap)).1 = Raise AssertionError)
    by (vm_compute; reflexivity).
  assert (Hitem : (__getitem__ 9 1 8 (run 9 only_13 empty_heap)).1 = Raise AssertionError)
    by (vm_compute; reflexivity).
  rewrite Hget, Hitem. split_and!; [done|done|done|by intros key|by intros func].
Qed.
End more_concrete_runs.
